(** * Layout suggestion analysis (tir/schedule/analysis/layout.cc)

    A shallow embedding of [GetStrides], [SplitExprCollector] and
    [SuggestIndexMap], followed by the properties of the analysis.

    Conventions of the embedding:
    - a C++ exception is a [Throw]; [ICHECK], [ICHECK_EQ] and the bounds
      check of the host's [Array] raise [ICheckFailed], [unordered_map::at]
      raises [StdOutOfRange];
    - the arithmetic analyzer and the iteration-map detector live outside
      this file and are the fields of the class [ArithHost];
    - symbolic expressions are the syntax trees [PrimExpr]; their meaning is
      [eval], in unbounded integers. *)

From stdpp Require Import base numbers option list gmap strings sorting.
From Stdlib Require Import ZArith Lia.

Local Open Scope Z_scope.
Local Open Scope nat_scope.

(** ** Exceptions *)

Inductive failure : Type :=
  | ICheckFailed      (* a failed ICHECK of the host: the fatal path *)
  | StdOutOfRange     (* std::out_of_range, thrown by unordered_map::at *)
  | VectorOutOfBounds (* an unchecked std::vector read past the end *).

Inductive result (A : Type) : Type :=
  | Ok (a : A)
  | Throw (f : failure).
Arguments Ok {A} a.
Arguments Throw {A} f.

#[global] Instance result_ret : MRet result := @Ok.
#[global] Instance result_bind : MBind result := λ A B k m,
  match m with
  | Ok a => k a
  | Throw f => Throw f
  end.

Definition ICHECK (b : bool) : result unit :=
  if b then Ok tt else Throw ICheckFailed.

(** ** Variables and expressions *)

(** A variable is known by its identity.  [Named] are the variables of the
    analysed program; [Fresh k] is the k-th variable allocated by
    [IndexMap::FromFunc], distinct from every variable of the program. *)
Inductive Var : Type :=
  | Named (name : string)
  | Fresh (k : nat).

#[global] Instance Var_eq_dec : EqDecision Var.
Proof. solve_decision. Defined.

#[global] Instance Var_countable : Countable Var.
Proof.
  refine (inj_countable'
    (λ v, match v with Named s => inl s | Fresh k => inr k end)
    (λ x, match x with inl s => Named s | inr k => Fresh k end) _).
  by intros [].
Defined.

Inductive PrimExpr : Type :=
  | NullExpr                       (* PrimExpr{nullptr} *)
  | IntImm (value : Z)
  | VarRef (v : Var)
  | Add (a b : PrimExpr)
  | Mul (a b : PrimExpr)
  | FloorDiv (a b : PrimExpr)
  | FloorMod (a b : PrimExpr).

#[global] Instance PrimExpr_eq_dec : EqDecision PrimExpr.
Proof. solve_decision. Defined.

(** [make_const(dtype, v)]; the numeric type is not part of the model. *)
Definition make_const (v : Z) : PrimExpr := IntImm v.

(** [as_const_int]: the value of an integer immediate, nothing otherwise. *)
Definition as_const_int (e : PrimExpr) : option Z :=
  match e with
  | IntImm v => Some v
  | _ => None
  end.

(** The meaning of an expression under a valuation of its variables. *)
Fixpoint eval (env : Var → Z) (e : PrimExpr) : Z :=
  match e with
  | NullExpr => 0%Z
  | IntImm v => v
  | VarRef x => env x
  | Add a b => (eval env a + eval env b)%Z
  | Mul a b => (eval env a * eval env b)%Z
  | FloorDiv a b => (eval env a `div` eval env b)%Z
  | FloorMod a b => (eval env a `mod` eval env b)%Z
  end.

Record Range : Type := FromMinExtent { range_min : PrimExpr; range_extent : PrimExpr }.

Record For : Type := MkFor { loop_var : Var; loop_min : PrimExpr; loop_extent : PrimExpr }.

Record Buffer : Type := MkBuffer { shape : list PrimExpr; strides : list PrimExpr }.

Record IndexMap : Type := MkIndexMap {
  initial_indices : list Var;
  final_indices : list PrimExpr }.

(** ** Containers of the host *)

(** Modelled from the spec: [Array<T>::operator[]] is declared outside this
    file; an arity mismatch is a hard assertion (section 7), so a read past
    the end fails an ICHECK. *)
Definition array_get {A} (arr : list A) (i : nat) : result A :=
  match arr !! i with
  | Some x => Ok x
  | None => Throw ICheckFailed
  end.

(** Modelled from the spec: [Array<T>::Set], bounds-checked like the read. *)
Definition array_set {A} (arr : list A) (i : nat) (x : A) : result (list A) :=
  if bool_decide (i < length arr) then Ok (<[i:=x]> arr) else Throw ICheckFailed.

(** [std::vector::operator[]]: unchecked. *)
Definition vector_get {A} (v : list A) (i : nat) : result A :=
  match v !! i with
  | Some x => Ok x
  | None => Throw VectorOutOfBounds
  end.

(** [std::unordered_map::at]. *)
Definition map_at (m : gmap Var nat) (k : Var) : result nat :=
  match m !! k with
  | Some x => Ok x
  | None => Throw StdOutOfRange
  end.

(** [std::unordered_map::emplace]: keeps the entry that is already there. *)
Definition emplace (m : gmap Var nat) (k : Var) (x : nat) : gmap Var nat :=
  match m !! k with
  | Some _ => m
  | None => <[k:=x]> m
  end.

(** ** The normalized sum-of-splits form returned by the detector *)

Inductive IterSumExpr : Type :=
  | IterSum (args : list IterSplitExpr) (base : PrimExpr)
with IterSplitExpr : Type :=
  | IterSplit (source : IterMark) (lower_factor extent scale : PrimExpr)
with IterMark : Type :=
  | MarkExpr (source : PrimExpr) (extent : PrimExpr)   (* source is a plain expression *)
  | MarkSum (source : IterSumExpr) (extent : PrimExpr) (* source is an IterSumExprNode *).

(** ** The collaborators *)

Class ArithHost : Type := {
  Analyzer : Type;
  Simplify : Analyzer → PrimExpr → PrimExpr;
  Bind : Analyzer → Var → Range → Analyzer;
  DetectIterMap :
    list PrimExpr → gmap Var Range → PrimExpr → bool → Analyzer →
    list IterSumExpr * Analyzer }.

(** ** GetStrides *)

(** The loop [for (int i = ndim - 1; i >= 0; --i)], with [n = i + 1].
    [operator*] of the host is the node [Mul]; the host may fold constants
    where it builds the node, which changes the tree and not its value, so
    the strides are described by their values. *)
Fixpoint GetStrides_loop (shape : list PrimExpr) (n : nat)
    (strides : list PrimExpr) (stride : PrimExpr) : result (list PrimExpr) :=
  match n with
  | 0 => Ok strides
  | S i =>
      strides' ← array_set strides i stride;
      dim ← array_get shape i;
      GetStrides_loop shape i strides' (Mul stride dim)
  end.

Definition GetStrides (buffer : Buffer) : result (list PrimExpr) :=
  if negb (bool_decide (strides buffer = [])) then
    _ ← ICHECK (bool_decide (length (strides buffer) = length (shape buffer)));
    Ok (strides buffer)
  else
    let ndim := length (shape buffer) in
    if bool_decide (ndim = 0) then Ok []
    else GetStrides_loop (shape buffer) ndim (replicate ndim NullExpr) (make_const 1).

(** ** SplitExprCollector *)

Module SplitExprCollector.

(** The pattern is [source // lower_factor % extent * scale]. *)
Record SplitExpr : Type := MkSplitExpr {
  source : Var;
  lower_factor : Z;
  extent : Z }.

Record collector : Type := MkCollector {
  failed_ : bool;
  exprs_ : list SplitExpr }.

Definition init : collector := MkCollector false [].

Definition set_failed (c : collector) : collector :=
  MkCollector true (exprs_ c).

Definition push_back (c : collector) (e : SplitExpr) : collector :=
  MkCollector (failed_ c) (exprs_ c ++ [e]).

(** [Visit(const IterSplitExpr&)]; the inner loop is
    [Visit(const IterSumExpr&)] on the nested sum.  The last branch is the
    failed [ICHECK(false)]; its message reads the type key of the source, so
    it stands for the code only at a source that is not the null reference
    (see [null_source]). *)
Fixpoint VisitSplit (expr : IterSplitExpr) (c : collector) : result collector :=
  match expr with
  | IterSplit (MarkExpr (VarRef var) _) lf ext _ =>
      match as_const_int lf, as_const_int ext with
      | Some lower_factor, Some extent =>
          Ok (push_back c (MkSplitExpr var lower_factor extent))
      | _, _ => Ok (set_failed c)
      end
  | IterSplit (MarkSum (IterSum args _) _) _ _ _ =>
      (fix visit_args (args : list IterSplitExpr) (c : collector) : result collector :=
         match args with
         | [] => Ok c
         | arg :: rest => c' ← VisitSplit arg c; visit_args rest c'
         end) args c
  | IterSplit (MarkExpr _ _) _ _ _ => Throw ICheckFailed
  end.

Fixpoint VisitArgs (args : list IterSplitExpr) (c : collector) : result collector :=
  match args with
  | [] => Ok c
  | arg :: rest => c' ← VisitSplit arg c; VisitArgs rest c'
  end.

(** [Visit(const IterSumExpr&)]. *)
Definition VisitSum (expr : IterSumExpr) (c : collector) : result collector :=
  match expr with
  | IterSum args _ => VisitArgs args c
  end.

Definition Collect `{ArithHost} (index : PrimExpr) (input_iters : gmap Var Range)
    (predicate : PrimExpr) (require_bijective : bool) (analyzer : Analyzer)
    : result (list SplitExpr * Analyzer) :=
  let '(iter_sum_exprs, analyzer) :=
    DetectIterMap [Simplify analyzer index] input_iters predicate
                  require_bijective analyzer in
  match iter_sum_exprs with
  | [] => Ok ([], analyzer)
  | sum0 :: _ =>
      _ ← ICHECK (bool_decide (length iter_sum_exprs = 1));
      match sum0 with
      | IterSum [] _ => Ok ([], analyzer)
      | _ =>
          c ← VisitSum sum0 init;
          if failed_ c then Ok ([], analyzer) else Ok (exprs_ c, analyzer)
      end
  end.

End SplitExprCollector.

Import SplitExprCollector.

(** ** SuggestIndexMap *)

(** Step 1: the domains of the loop variables and their nesting positions
    ([i] is the position of the head of [loops]). *)
Fixpoint collect_loops (loops : list For) (i : nat)
    (input_iters : gmap Var Range) (var2id : gmap Var nat)
    : gmap Var Range * gmap Var nat :=
  match loops with
  | [] => (input_iters, var2id)
  | loop :: rest =>
      collect_loops rest (S i)
        (<[loop_var loop := FromMinExtent (loop_min loop) (loop_extent loop)]> input_iters)
        (emplace var2id (loop_var loop) i)
  end.

(** Step 2: the loop [for (int i = 0; i < ndim; ++i)] of [f_flatten_index],
    with [remaining = ndim - i]. *)
Fixpoint f_flatten_loop (strides indices : list PrimExpr) (i remaining : nat)
    (flatten_index : PrimExpr) : result PrimExpr :=
  match remaining with
  | 0 => Ok flatten_index
  | S remaining' =>
      stride ← array_get strides i;
      index ← array_get indices i;
      f_flatten_loop strides indices (S i) remaining'
        (Add flatten_index (Mul stride index))
  end.

Definition f_flatten_index (ndim : nat) (strides : list PrimExpr)
    (indices : list PrimExpr) : result PrimExpr :=
  f_flatten_loop strides indices 0 ndim (make_const 0).

(** Step 4: the comparator handed to [std::sort]. *)
Definition split_less (split_exprs : list SplitExpr) (var2id : gmap Var nat)
    (_a _b : nat) : result bool :=
  a ← vector_get split_exprs _a;
  b ← vector_get split_exprs _b;
  a_var_id ← map_at var2id (source a);
  b_var_id ← map_at var2id (source b);
  if negb (bool_decide (a_var_id = b_var_id)) then
    Ok (bool_decide (a_var_id < b_var_id))
  else
    Ok (bool_decide (lower_factor b < lower_factor a)%Z).

(** [std::sort] as an insertion sort: each element moves left past the
    elements that compare greater than it, and an exception of the
    comparator ends the sort.  The order of equivalent elements is left open
    by [std::sort]; nothing below depends on it. *)
Fixpoint sort_insert (less : nat → nat → result bool) (x : nat) (sorted : list nat)
    : result (list nat) :=
  match sorted with
  | [] => Ok [x]
  | y :: rest =>
      y_first ← less y x;
      if (y_first : bool) then
        tail ← sort_insert less x rest;
        Ok (y :: tail)
      else Ok (x :: y :: rest)
  end.

Fixpoint std_sort (less : nat → nat → result bool) (l : list nat) : result (list nat) :=
  match l with
  | [] => Ok []
  | x :: rest => sorted ← std_sort less rest; sort_insert less x sorted
  end.

(** Step 5: the loop binding each placeholder to [0, shape[i]). *)
Fixpoint bind_loop `{ArithHost} (indices : list Var) (shape : list PrimExpr)
    (i remaining : nat) (analyzer : Analyzer) : result Analyzer :=
  match remaining with
  | 0 => Ok analyzer
  | S remaining' =>
      var ← array_get indices i;
      dim ← array_get shape i;
      bind_loop indices shape (S i) remaining'
        (Bind analyzer var (FromMinExtent (make_const 0) dim))
  end.

(** The conversion of an [int64_t] to [int]: the value wraps to 32 bits. *)
Definition to_int (v : Z) : Z := ((v + 2 ^ 31) `mod` 2 ^ 32 - 2 ^ 31)%Z.

(** Modelled from the spec: [floormod(PrimExpr, int)] and
    [floordiv(PrimExpr, int)] are declared outside this file; they are the
    mod and div of section 4.4.  The [int64_t] extent is converted to their
    [int] parameter and becomes an immediate; a zero divisor fails the
    host's check. *)
Definition floormod (a : PrimExpr) (b : Z) : result PrimExpr :=
  let b := to_int b in
  _ ← ICHECK (negb (bool_decide (b = 0%Z)));
  Ok (FloorMod a (make_const b)).

Definition floordiv (a : PrimExpr) (b : Z) : result PrimExpr :=
  let b := to_int b in
  _ ← ICHECK (negb (bool_decide (b = 0%Z)));
  Ok (FloorDiv a (make_const b)).

(** Step 5.1: the loop [for (int i = ndim - 1; i >= 0; --i)], with [n = i + 1]. *)
Fixpoint split_loop `{ArithHost} (analyzer : Analyzer) (split_exprs : list SplitExpr)
    (n : nat) (index : PrimExpr) (split : list PrimExpr)
    : result (list PrimExpr) :=
  match n with
  | 0 => Ok split
  | S i =>
      let index := Simplify analyzer index in
      e ← vector_get split_exprs i;
      let extent := extent e in
      remainder ← floormod index extent;
      index ← floordiv index extent;
      split_loop analyzer split_exprs i index (split ++ [Simplify analyzer remainder])
  end.

(** Step 5.2: the loop [for (int i = 0; i < ndim; ++i)], with
    [remaining = ndim - i]. *)
Fixpoint reorder_loop (split : list PrimExpr) (order : list nat) (i remaining : nat)
    (results : list PrimExpr) : result (list PrimExpr) :=
  match remaining with
  | 0 => Ok results
  | S remaining' =>
      k ← vector_get order i;
      x ← vector_get split k;
      reorder_loop split order (S i) remaining' (results ++ [x])
  end.

Definition f_alter_layout `{ArithHost}
    (f_flatten_index : list PrimExpr → result PrimExpr)
    (split_exprs : list SplitExpr) (order : list nat) (shape : list PrimExpr)
    (analyzer : Analyzer) (indices : list Var) : result (list PrimExpr) :=
  _ ← ICHECK (bool_decide (length indices = length shape));
  analyzer ← bind_loop indices shape 0 (length indices) analyzer;
  index ← f_flatten_index (VarRef <$> indices);
  let ndim := length split_exprs in
  split ← split_loop analyzer split_exprs ndim index [];
  let split := reverse split in
  reorder_loop split order 0 ndim [].

(** Modelled from the spec: [IndexMap::FromFunc] is declared outside this
    file; it creates one fresh placeholder coordinate per dimension of the
    original buffer shape and applies the function to them once. *)
Definition FromFunc (ndim : nat) (func : list Var → result (list PrimExpr))
    : result IndexMap :=
  let initial_indices := Fresh <$> seq 0 ndim in
  final ← func initial_indices;
  Ok (MkIndexMap initial_indices final).

Definition SuggestIndexMap `{ArithHost} (buffer : Buffer) (indices : list PrimExpr)
    (loops : list For) (predicate : PrimExpr) (analyzer : Analyzer)
    : result (option IndexMap) :=
  let ndim := length (shape buffer) in
  (* Step 1 *)
  let '(input_iters, var2id) := collect_loops loops 0 ∅ ∅ in
  (* Step 2 *)
  strides ← GetStrides buffer;
  let f_flatten_index := f_flatten_index ndim strides in
  (* Step 3 *)
  index ← f_flatten_index indices;
  '(split_exprs, analyzer) ← Collect index input_iters predicate false analyzer;
  if bool_decide (split_exprs = []) then Ok None
  else
    (* Step 4 *)
    order ← std_sort (split_less split_exprs var2id) (seq 0 (length split_exprs));
    (* Step 5 *)
    map ← FromFunc ndim
            (f_alter_layout f_flatten_index split_exprs order (shape buffer) analyzer);
    Ok (Some map).

(** ** Reference notions used by the statements *)

(** The nesting position of a variable: the index of the first loop of the
    sequence that declares it. *)
Fixpoint nesting_position (loops : list For) (v : Var) : option nat :=
  match loops with
  | [] => None
  | loop :: rest =>
      if decide (loop_var loop = v) then Some 0
      else S <$> nesting_position rest v
  end.

(** The split nodes of a decomposition, in the order a depth-first walk
    meets them: a node, then the nodes of the sum it wraps. *)
Fixpoint split_nodes (expr : IterSplitExpr) : list IterSplitExpr :=
  expr ::
  match expr with
  | IterSplit (MarkSum (IterSum args _) _) _ _ _ => flat_map split_nodes args
  | IterSplit (MarkExpr _ _) _ _ _ => []
  end.

Definition sum_nodes (expr : IterSumExpr) : list IterSplitExpr :=
  match expr with
  | IterSum args _ => flat_map split_nodes args
  end.

(** The two documented node shapes: a direct loop variable or a nested sum. *)
Definition recognised (expr : IterSplitExpr) : bool :=
  match expr with
  | IterSplit (MarkExpr (VarRef _) _) _ _ _ => true
  | IterSplit (MarkSum _ _) _ _ _ => true
  | IterSplit (MarkExpr _ _) _ _ _ => false
  end.

(** A node wrapping a direct loop variable. *)
Definition is_var_node (expr : IterSplitExpr) : bool :=
  match expr with
  | IterSplit (MarkExpr (VarRef _) _) _ _ _ => true
  | _ => false
  end.

(** A node whose lower factor or extent is not a compile-time constant. *)
Definition has_dynamic_factor (expr : IterSplitExpr) : bool :=
  match expr with
  | IterSplit _ lf ext _ =>
      negb (bool_decide (is_Some (as_const_int lf)) &&
            bool_decide (is_Some (as_const_int ext)))
  end.

(** The split component of a node: a direct loop variable with constant
    lower factor and extent. *)
Definition component_of (expr : IterSplitExpr) : option SplitExpr :=
  match expr with
  | IterSplit (MarkExpr (VarRef var) _) (IntImm lf) (IntImm ext) _ =>
      Some (MkSplitExpr var lf ext)
  | _ => None
  end.

(** Modelled from the spec: what the detector, declared outside this file,
    answers on the zero constant: no decomposition, or one without split
    terms (section 4.4). *)
Definition no_split_terms (sums : list IterSumExpr) : Prop :=
  sums = [] ∨ ∃ base, sums = [IterSum [] base].

(** Digit-by-digit decomposition of a flattened position: [exts] are the
    extents in processing order, the remainders come out in that order. *)
Fixpoint digits (exts : list Z) (flattened : Z) : list Z :=
  match exts with
  | [] => []
  | e :: rest => (flattened `mod` e)%Z :: digits rest (flattened `div` e)%Z
  end.

(** Processing from the last extent to the first, then reversing. *)
Definition digits_reversed (exts : list Z) (flattened : Z) : list Z :=
  reverse (digits (reverse exts) flattened).

(** The extents of the components taken in the order [order]. *)
Definition extents_in_order (split_exprs : list SplitExpr) (order : list nat) : list Z :=
  omap (λ k, extent <$> split_exprs !! k) order.

(** The weight of a digit: the product of the extents that follow it. *)
Definition weight (exts : list Z) (k : nat) : Z :=
  foldr Z.mul 1%Z (drop (S k) exts).

(** The key by which the comparator orders the component of index [k]:
    the position recorded for its source variable and its lower factor. *)
Definition sort_key (split_exprs : list SplitExpr) (var2id : gmap Var nat) (k : nat)
    : option (nat * Z) :=
  e ← split_exprs !! k;
  id ← var2id !! source e;
  Some (id, lower_factor e).

Definition key_less (ka kb : nat * Z) : bool :=
  if negb (bool_decide (ka.1 = kb.1)) then bool_decide (ka.1 < kb.1)
  else bool_decide (kb.2 < ka.2)%Z.

(** [b] may follow [a]: both have a key and [b] is not less than [a]. *)
Definition may_follow (split_exprs : list SplitExpr) (var2id : gmap Var nat)
    (a b : nat) : Prop :=
  ∃ ka kb, sort_key split_exprs var2id a = Some ka ∧
           sort_key split_exprs var2id b = Some kb ∧
           key_less kb ka = false.

(** What a walk over the nodes [nodes] does to the collector: it aborts if
    a node has neither documented shape; otherwise it raises the failure
    flag at a variable node with a dynamic factor and appends the
    components of the others, in order. *)
Definition walk (nodes : list IterSplitExpr) (c : collector) : result collector :=
  if forallb recognised nodes then
    Ok (MkCollector
          (failed_ c || existsb (λ e, is_var_node e && has_dynamic_factor e) nodes)
          (exprs_ c ++ omap component_of nodes))
  else Throw ICheckFailed.

(** Induction over split nodes, with the nodes of a wrapped sum as
    induction hypotheses. *)
Section IterSplitExpr_nested_ind.
Variable P : IterSplitExpr → Prop.
Hypothesis Hexpr : ∀ src mext lf ext sc, P (IterSplit (MarkExpr src mext) lf ext sc).
Hypothesis Hsum : ∀ args base mext lf ext sc,
  Forall P args → P (IterSplit (MarkSum (IterSum args base) mext) lf ext sc).

Fixpoint IterSplitExpr_nested_ind (e : IterSplitExpr) : P e :=
  match e with
  | IterSplit (MarkExpr src mext) lf ext sc => Hexpr src mext lf ext sc
  | IterSplit (MarkSum (IterSum args base) mext) lf ext sc =>
      Hsum args base mext lf ext sc
        ((fix all (l : list IterSplitExpr) : Forall P l :=
            match l with
            | [] => Forall_nil_2 P
            | a :: r => Forall_cons_2 P a r (IterSplitExpr_nested_ind a) (all r)
            end) args)
  end.
End IterSplitExpr_nested_ind.

(** The domain recorded for a variable: that of the last loop of the
    sequence that declares it. *)
Fixpoint declared_range (loops : list For) (v : Var) : option Range :=
  match loops with
  | [] => None
  | loop :: rest =>
      match declared_range rest v with
      | Some r => Some r
      | None =>
          if decide (loop_var loop = v)
          then Some (FromMinExtent (loop_min loop) (loop_extent loop))
          else None
      end
  end.

(** The sum of the products of two sequences, entry by entry. *)
Fixpoint dot_product (xs ys : list Z) : Z :=
  match xs, ys with
  | x :: xs', y :: ys' => (x * y + dot_product xs' ys')%Z
  | _, _ => 0%Z
  end.

(** The position that the digits [ds] denote in the mixed radix [exts]:
    each digit times the product of the extents after it. *)
Fixpoint positional (exts ds : list Z) : Z :=
  match exts, ds with
  | _ :: exts', d :: ds' => (d * foldr Z.mul 1 exts' + positional exts' ds')%Z
  | _, _ => 0%Z
  end.

(** A node whose source is the null reference. *)
Definition null_source (expr : IterSplitExpr) : bool :=
  match expr with
  | IterSplit (MarkExpr NullExpr _) _ _ _ => true
  | _ => false
  end.

(** The values of [int]. *)
Definition fits_int (v : Z) : Prop := (- 2 ^ 31 ≤ v < 2 ^ 31)%Z.

(** ** A host for concrete runs *)

(** The simplifier is the identity, the analyzer records its bindings, and
    the detector answers every query with the decomposition [answer]. *)
Definition scripted_host (answer : list IterSumExpr) : ArithHost := {|
  Analyzer := list (Var * Range);
  Simplify := λ _ e, e;
  Bind := λ a v r, (v, r) :: a;
  DetectIterMap := λ _ _ _ _ a, (answer, a) |}.

Definition var_split (name : string) (lf ext scale : Z) : IterSplitExpr :=
  IterSplit (MarkExpr (VarRef (Named name)) (IntImm (lf * ext)))
            (IntImm lf) (IntImm ext) (IntImm scale).

Definition loop_over (name : string) (ext : Z) : For :=
  MkFor (Named name) (IntImm 0) (IntImm ext).

Definition const_true : PrimExpr := IntImm 1.

(** ** A host that uses the bound ranges *)

(** The analyzer is the list of its bindings.  A variable bound to
    [0, m) with [m <= n] is itself modulo [n]; adding the constant 0 and
    multiplying by the constant 1 are dropped. *)
Definition bound_below (a : list (Var * Range)) (v : Var) (n : Z) : bool :=
  existsb (λ '(v', r),
    bool_decide (v' = v) &&
    match r with
    | FromMinExtent (IntImm 0) (IntImm m) => bool_decide (0 < m ≤ n)%Z
    | _ => false
    end) a.

Fixpoint range_simplify (a : list (Var * Range)) (e : PrimExpr) : PrimExpr :=
  match e with
  | Add x y =>
      match range_simplify a x with
      | IntImm 0 => range_simplify a y
      | x' => Add x' (range_simplify a y)
      end
  | Mul x y =>
      match range_simplify a x with
      | IntImm 1 => range_simplify a y
      | x' => Mul x' (range_simplify a y)
      end
  | FloorMod x y =>
      match range_simplify a x, range_simplify a y with
      | VarRef v, IntImm n => if bound_below a v n then VarRef v else FloorMod (VarRef v) (IntImm n)
      | x', y' => FloorMod x' y'
      end
  | FloorDiv x y => FloorDiv (range_simplify a x) (range_simplify a y)
  | _ => e
  end.

Definition range_host (answer : list IterSumExpr) : ArithHost := {|
  Analyzer := list (Var * Range);
  Simplify := range_simplify;
  Bind := λ a v r, (v, r) :: a;
  DetectIterMap := λ _ _ _ _ a, (answer, a) |}.

(** The valuation [env] is within every range the analyzer has bound. *)
Definition respects (env : Var → Z) (a : list (Var * Range)) : Prop :=
  Forall (λ '(v, r),
    (eval env (range_min r) ≤ env v < eval env (range_min r) + eval env (range_extent r))%Z) a.

(** * Properties *)

(** ** The exception monad *)

Lemma bind_Ok {A B} (m : result A) (k : A → result B) (b : B) :
  m ≫= k = Ok b ↔ ∃ a, m = Ok a ∧ k a = Ok b.
Proof.
  destruct m as [a|f]; simpl; split.
  - intros Hk. by exists a.
  - by intros (a' & [= <-] & Hk).
  - intros [=].
  - by intros (a' & [=] & _).
Qed.

Lemma array_get_lt {A} (arr : list A) i :
  i < length arr → ∃ x, array_get arr i = Ok x ∧ arr !! i = Some x.
Proof.
  intros Hi. destruct (lookup_lt_is_Some_2 arr i Hi) as [x Hx].
  exists x. split; [|done]. unfold array_get. by rewrite Hx.
Qed.

(** ** GetStrides *)

Lemma GetStrides_loop_spec (sh : list PrimExpr) :
  ∀ n st stride,
    n ≤ length sh → length st = length sh →
    ∃ out, GetStrides_loop sh n st stride = Ok out ∧
      length out = length sh ∧
      (∀ j, n ≤ j → out !! j = st !! j) ∧
      (∀ i, S i = n → out !! i = Some stride) ∧
      (∀ i s d, S i < n → out !! S i = Some s → sh !! S i = Some d →
                out !! i = Some (Mul s d)).
Proof.
  induction n as [|i IH]; intros st stride Hn Hlen; simpl.
  - exists st. repeat split; auto; intros; lia.
  - unfold array_set. rewrite bool_decide_eq_true_2 by lia. simpl.
    destruct (array_get_lt sh i) as (dim & -> & Hdim); [lia|]. simpl.
    destruct (IH (<[i:=stride]> st) (Mul stride dim)) as
      (out & Hout & Hlen' & Hkeep & Htop & Hrec); [lia|by rewrite length_insert|].
    exists out. split; [done|]. split; [done|].
    assert (Hi : out !! i = Some stride).
    { rewrite Hkeep by lia. apply list_lookup_insert_eq. lia. }
    split; [|split].
    + intros j Hj. rewrite Hkeep by lia. apply list_lookup_insert_ne. lia.
    + intros i' [= ->]. done.
    + intros i' s d Hlt Hs Hd.
      destruct (decide (S i' = i)) as [<-|Hne].
      * rewrite Hi in Hs. rewrite Hdim in Hd. simplify_eq. by apply Htop.
      * apply Hrec; [lia|done..].
Qed.

(** C5: a buffer without explicit strides gets as many strides as it has
    dimensions; in values, the last one is 1 and each other one is the
    product of the stride and the extent to its right, so that shape
    [a, b, c] gives [b*c, c, 1]; rank 0 gives the empty sequence; explicit
    strides of matching length are returned unchanged. *)
Theorem GetStrides_row_major (buffer : Buffer)
    (Hwf : strides buffer = [] ∨ length (strides buffer) = length (shape buffer)) :
  ∃ out, GetStrides buffer = Ok out ∧
    length out = length (shape buffer) ∧
    (strides buffer ≠ [] → out = strides buffer) ∧
    (strides buffer = [] →
       (∀ env i, S i = length (shape buffer) → eval env <$> out !! i = Some 1%Z) ∧
       (∀ env i stride extent,
          eval env <$> out !! S i = Some stride →
          eval env <$> shape buffer !! S i = Some extent →
          eval env <$> out !! i = Some (stride * extent)%Z) ∧
       (shape buffer = [] → out = []) ∧
       (∀ env a b c, shape buffer = [a; b; c] →
          eval env <$> out = [(eval env b * eval env c)%Z; eval env c; 1%Z])).
Proof.
  destruct buffer as [sh st]; simpl in *. unfold GetStrides; simpl.
  destruct (decide (st = [])) as [->|Hne].
  - rewrite bool_decide_eq_true_2 by done. simpl.
    destruct (decide (length sh = 0)) as [Hz|Hnz].
    + rewrite bool_decide_eq_true_2 by done.
      exists []. apply nil_length_inv in Hz as ->.
      repeat split; try done.
    + rewrite bool_decide_eq_false_2 by done.
      destruct (GetStrides_loop_spec sh (length sh) (replicate (length sh) NullExpr)
                  (make_const 1)) as (out & Hout & Hlen & _ & Htop & Hrec);
        [lia|by rewrite length_replicate|].
      exists out. split; [done|]. split; [done|]. split; [done|]. intros _.
      split; [|split; [|split]].
      * intros env i Hi. by rewrite (Htop i Hi).
      * intros env i stride extent Hs Hd.
        apply fmap_Some in Hs as (s & Hs & ->). apply fmap_Some in Hd as (d & Hd & ->).
        rewrite (Hrec i s d); [done| |done..].
        apply lookup_lt_Some in Hs. lia.
      * intros ->. done.
      * intros env a b c ->. simpl in Hout.
        by injection Hout as <-; simpl; f_equal; [lia|f_equal; lia].
  - rewrite bool_decide_eq_false_2 by done. simpl.
    destruct Hwf as [?|Hlen]; [done|].
    rewrite bool_decide_eq_true_2 by done. simpl.
    exists st. repeat split; done.
Qed.

Lemma GetStrides_row_major_witness :
  ∃ out, GetStrides (MkBuffer [IntImm 2; IntImm 3; IntImm 5] []) = Ok out ∧
    eval (λ _, 0%Z) <$> out = [15%Z; 5%Z; 1%Z].
Proof.
  destruct (GetStrides_row_major (MkBuffer [IntImm 2; IntImm 3; IntImm 5] []))
    as (out & Hout & _ & _ & Hderived); [by left|].
  exists out. split; [done|].
  destruct (Hderived eq_refl) as (_ & _ & _ & Habc).
  apply (Habc (λ _, 0%Z) (IntImm 2) (IntImm 3) (IntImm 5) eq_refl).
Defined.

(** ** The walk of the collector *)

Lemma VisitSplit_nested args base mext lf ext sc c :
  VisitSplit (IterSplit (MarkSum (IterSum args base) mext) lf ext sc) c =
  VisitArgs args c.
Proof.
  simpl. revert c. induction args as [|a rest IH]; intros c; simpl; [done|].
  destruct (VisitSplit a c) as [c'|f]; simpl; [apply IH|done].
Qed.

Lemma walk_nil c : walk [] c = Ok c.
Proof.
  unfold walk. simpl. destruct c as [f l]. simpl.
  by rewrite orb_false_r, app_nil_r.
Qed.

Lemma walk_app l1 l2 c : walk (l1 ++ l2) c = walk l1 c ≫= walk l2.
Proof.
  unfold walk. rewrite forallb_app, existsb_app, omap_app.
  destruct (forallb recognised l1); simpl; [|done].
  destruct (forallb recognised l2); simpl; [|done].
  by rewrite orb_assoc, app_assoc.
Qed.

Lemma walk_sum_node src mext lf ext sc rest c :
  walk (IterSplit (MarkSum src mext) lf ext sc :: rest) c = walk rest c.
Proof. done. Qed.

Lemma VisitSplit_leaf src mext lf ext sc c :
  VisitSplit (IterSplit (MarkExpr src mext) lf ext sc) c =
  walk [IterSplit (MarkExpr src mext) lf ext sc] c.
Proof.
  destruct c as [f l]. unfold walk.
  destruct src; simpl; try done.
  destruct lf; simpl; rewrite ?orb_true_r, ?app_nil_r; try done.
  destruct ext; simpl; rewrite ?orb_true_r, ?orb_false_r, ?app_nil_r; done.
Qed.

Lemma VisitArgs_walk args :
  Forall (λ e, ∀ c, VisitSplit e c = walk (split_nodes e) c) args →
  ∀ c, VisitArgs args c = walk (flat_map split_nodes args) c.
Proof.
  induction 1 as [|a rest Ha _ IH]; intros c; simpl.
  - by rewrite walk_nil.
  - rewrite walk_app, Ha. destruct (walk (split_nodes a) c); simpl; [apply IH|done].
Qed.

Lemma VisitSplit_walk e c : VisitSplit e c = walk (split_nodes e) c.
Proof.
  revert c. induction e as [src mext lf ext sc|args base mext lf ext sc IH]
    using IterSplitExpr_nested_ind; intros c.
  - apply VisitSplit_leaf.
  - rewrite VisitSplit_nested. cbn [split_nodes]. rewrite walk_sum_node.
    by apply VisitArgs_walk.
Qed.

Lemma VisitSum_walk s c : VisitSum s c = walk (sum_nodes s) c.
Proof.
  destruct s as [args base]. simpl.
  apply VisitArgs_walk, Forall_forall. intros e _ c'. apply VisitSplit_walk.
Qed.

(** ** Collect and the steps of SuggestIndexMap *)

Section Steps.
Context `{Host : ArithHost}.

Lemma Collect_none index iters pred rb a a' :
  DetectIterMap [Simplify a index] iters pred rb a = ([], a') →
  Collect index iters pred rb a = Ok ([], a').
Proof. unfold Collect. by intros ->. Qed.

Lemma Collect_many index iters pred rb a sums a' :
  DetectIterMap [Simplify a index] iters pred rb a = (sums, a') →
  sums ≠ [] → length sums ≠ 1 →
  Collect index iters pred rb a = Throw ICheckFailed.
Proof.
  unfold Collect. intros -> Hne Hlen.
  destruct sums as [|s rest]; [done|].
  by rewrite bool_decide_eq_false_2.
Qed.

Lemma Collect_one index iters pred rb a s a' :
  DetectIterMap [Simplify a index] iters pred rb a = ([s], a') →
  Collect index iters pred rb a =
    c ← walk (sum_nodes s) init;
    Ok (if failed_ c then [] else exprs_ c, a').
Proof.
  unfold Collect. intros ->. simpl.
  destruct s as [[|arg rest] base].
  - done.
  - rewrite VisitSum_walk. destruct (walk _ init) as [c|f]; simpl; [|done].
    by destruct (failed_ c).
Qed.

Lemma SuggestIndexMap_steps buffer indices loops predicate analyzer st index :
  GetStrides buffer = Ok st →
  f_flatten_index (length (shape buffer)) st indices = Ok index →
  SuggestIndexMap buffer indices loops predicate analyzer =
    '(split_exprs, analyzer') ←
      Collect index (collect_loops loops 0 ∅ ∅).1 predicate false analyzer;
    if bool_decide (split_exprs = []) then Ok None
    else
      order ← std_sort (split_less split_exprs (collect_loops loops 0 ∅ ∅).2)
                       (seq 0 (length split_exprs));
      map ← FromFunc (length (shape buffer))
              (f_alter_layout (f_flatten_index (length (shape buffer)) st)
                 split_exprs order (shape buffer) analyzer');
      Ok (Some map).
Proof.
  intros Hst Hidx. unfold SuggestIndexMap.
  destruct (collect_loops loops 0 ∅ ∅) as [iters var2id].
  rewrite Hst. simpl. rewrite Hidx. done.
Qed.

Lemma SuggestIndexMap_Collect_Throw buffer indices loops predicate analyzer st index f :
  GetStrides buffer = Ok st →
  f_flatten_index (length (shape buffer)) st indices = Ok index →
  Collect index (collect_loops loops 0 ∅ ∅).1 predicate false analyzer = Throw f →
  SuggestIndexMap buffer indices loops predicate analyzer = Throw f.
Proof.
  intros Hst Hidx Hc. by rewrite (SuggestIndexMap_steps _ _ _ _ _ _ _ Hst Hidx), Hc.
Qed.

Lemma SuggestIndexMap_Collect_nil buffer indices loops predicate analyzer st index a' :
  GetStrides buffer = Ok st →
  f_flatten_index (length (shape buffer)) st indices = Ok index →
  Collect index (collect_loops loops 0 ∅ ∅).1 predicate false analyzer = Ok ([], a') →
  SuggestIndexMap buffer indices loops predicate analyzer = Ok None.
Proof.
  intros Hst Hidx Hc. by rewrite (SuggestIndexMap_steps _ _ _ _ _ _ _ Hst Hidx), Hc.
Qed.

End Steps.

Lemma walk_recognised nodes c :
  Forall (λ e, recognised e = true) nodes →
  walk nodes c =
    Ok (MkCollector
          (failed_ c || existsb (λ e, is_var_node e && has_dynamic_factor e) nodes)
          (exprs_ c ++ omap component_of nodes)).
Proof.
  intros Hall. unfold walk.
  by rewrite (proj2 (forallb_forall _ _)); [|intros e He%list_elem_of_In; by eapply Forall_forall in Hall].
Qed.

Lemma walk_unrecognised nodes c e :
  e ∈ nodes → recognised e = false → walk nodes c = Throw ICheckFailed.
Proof.
  intros He Hrec. unfold walk.
  destruct (forallb recognised nodes) eqn:Hall; [|done].
  rewrite forallb_forall in Hall. apply list_elem_of_In, Hall in He. congruence.
Qed.

(** C8: the walk flattens nested sums into the one output list: the
    components are appended in the order in which a depth-first walk over
    the sum-of-splits tree meets their nodes, and a node wrapping a sum
    contributes exactly what that sum contributes. *)
Theorem Visit_flattens_in_encounter_order (s : IterSumExpr) (c : collector)
    (Hshape : Forall (λ e, recognised e = true) (sum_nodes s)) :
  ∃ c', VisitSum s c = Ok c' ∧
    exprs_ c' = exprs_ c ++ omap component_of (sum_nodes s) ∧
    (∀ mext lf ext sc, VisitSplit (IterSplit (MarkSum s mext) lf ext sc) c = Ok c').
Proof.
  eexists. split; [|split].
  - rewrite VisitSum_walk. by apply walk_recognised.
  - done.
  - intros mext lf ext sc. destruct s as [args base].
    rewrite VisitSplit_nested. change (VisitArgs args c) with (VisitSum (IterSum args base) c).
    rewrite VisitSum_walk. by apply walk_recognised.
Qed.

Lemma Visit_flattens_in_encounter_order_witness :
  ∃ c', VisitSum
      (IterSum [var_split "i" 8 4 8;
                IterSplit (MarkSum (IterSum [var_split "j" 1 2 4; var_split "k" 1 4 1]
                                            (IntImm 0)) (IntImm 8))
                          (IntImm 1) (IntImm 8) (IntImm 1)] (IntImm 0)) init = Ok c' ∧
    exprs_ c' = [MkSplitExpr (Named "i") 8 4; MkSplitExpr (Named "j") 1 2;
                 MkSplitExpr (Named "k") 1 4].
Proof.
  edestruct Visit_flattens_in_encounter_order as (c' & Hc' & Hexprs & _);
    [|exists c'; split; [exact Hc'|exact Hexprs]].
  repeat constructor.
Defined.

(** C9: a split node whose source is an expression that is neither a
    direct loop variable nor a nested sum (and not the null reference) makes
    the extraction abort with a failed assertion: the visit of the node, the
    walk of any decomposition that contains it, the extractor and the whole
    analysis. *)
Theorem unrecognised_node_aborts (e : IterSplitExpr)
    (Hshape : recognised e = false) (Hsource : null_source e = false) :
  (∀ c, VisitSplit e c = Throw ICheckFailed) ∧
  (∀ s c, e ∈ sum_nodes s →
     Forall (λ e', null_source e' = false) (sum_nodes s) →
     VisitSum s c = Throw ICheckFailed) ∧
  (∀ (Host : ArithHost) index iters pred rb a s a',
     DetectIterMap [Simplify a index] iters pred rb a = ([s], a') →
     e ∈ sum_nodes s →
     Forall (λ e', null_source e' = false) (sum_nodes s) →
     Collect index iters pred rb a = Throw ICheckFailed) ∧
  (∀ (Host : ArithHost) buffer indices loops pred a st index s a',
     GetStrides buffer = Ok st →
     f_flatten_index (length (shape buffer)) st indices = Ok index →
     DetectIterMap [Simplify a index] (collect_loops loops 0 ∅ ∅).1 pred false a = ([s], a') →
     e ∈ sum_nodes s →
     Forall (λ e', null_source e' = false) (sum_nodes s) →
     SuggestIndexMap buffer indices loops pred a = Throw ICheckFailed).
Proof.
  assert (Hsum : ∀ s c, e ∈ sum_nodes s → VisitSum s c = Throw ICheckFailed).
  { intros s c He. rewrite VisitSum_walk. by eapply walk_unrecognised. }
  assert (Hcollect : ∀ (Host : ArithHost) index iters pred rb a s a',
     DetectIterMap [Simplify a index] iters pred rb a = ([s], a') →
     e ∈ sum_nodes s →
     Collect index iters pred rb a = Throw ICheckFailed).
  { intros Host index iters pred rb a s a' Hdet He.
    rewrite (Collect_one _ _ _ _ _ _ _ Hdet), <- VisitSum_walk, Hsum; done. }
  split; [|split; [|split]].
  - intros c. rewrite VisitSplit_walk. eapply walk_unrecognised; [|done].
    destruct e as [[]]; simpl; [set_solver|by destruct source; set_solver].
  - intros s c He _. by apply Hsum.
  - intros Host index iters pred rb a s a' Hdet He _. by eapply Hcollect.
  - intros Host buffer indices loops pred a st index s a' Hst Hidx Hdet He _.
    eapply SuggestIndexMap_Collect_Throw; eauto.
Qed.

Lemma unrecognised_node_aborts_witness :
  @SuggestIndexMap (scripted_host
      [IterSum [var_split "i" 1 4 1;
                IterSplit (MarkExpr (Add (VarRef (Named "i")) (IntImm 1)) (IntImm 4))
                          (IntImm 1) (IntImm 4) (IntImm 1)] (IntImm 0)])
    (MkBuffer [IntImm 8] []) [VarRef (Named "i")] [loop_over "i" 4] const_true [] =
  Throw ICheckFailed.
Proof.
  eapply (proj2 (proj2 (proj2 (unrecognised_node_aborts
            (IterSplit (MarkExpr (Add (VarRef (Named "i")) (IntImm 1)) (IntImm 4))
                       (IntImm 1) (IntImm 4) (IntImm 1)) eq_refl eq_refl)))).
  - reflexivity.
  - reflexivity.
  - reflexivity.
  - simpl. set_solver.
  - repeat constructor.
Defined.

(** C10: when the detector answers with a non-empty list, the extractor
    asserts that it has exactly one entry: an answer of two or more
    decompositions aborts the extractor and the whole analysis with a
    failed assertion instead of declining. *)
Theorem Collect_asserts_single_decomposition `{Host : ArithHost}
    index iters pred rb a sums a'
    (Hdet : DetectIterMap [Simplify a index] iters pred rb a = (sums, a'))
    (Hmany : 2 ≤ length sums) :
  Collect index iters pred rb a = Throw ICheckFailed ∧
  ∀ buffer indices loops st,
    iters = (collect_loops loops 0 ∅ ∅).1 → rb = false →
    GetStrides buffer = Ok st →
    f_flatten_index (length (shape buffer)) st indices = Ok index →
    SuggestIndexMap buffer indices loops pred a = Throw ICheckFailed.
Proof.
  assert (Hc : Collect index iters pred rb a = Throw ICheckFailed).
  { eapply Collect_many; [done| |lia]. intros ->. simpl in Hmany. lia. }
  split; [done|]. intros buffer indices loops st -> -> Hst Hidx.
  by eapply SuggestIndexMap_Collect_Throw.
Qed.

Lemma Collect_asserts_single_decomposition_witness :
  @SuggestIndexMap (scripted_host
      [IterSum [var_split "i" 1 4 1] (IntImm 0); IterSum [var_split "i" 1 4 1] (IntImm 0)])
    (MkBuffer [IntImm 4] []) [VarRef (Named "i")] [loop_over "i" 4] const_true [] =
  Throw ICheckFailed.
Proof.
  set (sums := [IterSum [var_split "i" 1 4 1] (IntImm 0);
               IterSum [var_split "i" 1 4 1] (IntImm 0)]).
  destruct (@Collect_asserts_single_decomposition (scripted_host sums)
              (Add (IntImm 0) (Mul (IntImm 1) (VarRef (Named "i"))))
              (collect_loops [loop_over "i" 4] 0 ∅ ∅).1 const_true false [] sums []
              eq_refl) as [_ Hall]; [simpl; lia|].
  apply (Hall (MkBuffer [IntImm 4] []) [VarRef (Named "i")] [loop_over "i" 4] [IntImm 1]);
    reflexivity.
Defined.

(** C7: an empty list of split components makes SuggestIndexMap skip the
    synthesis and return no suggestion; this is the case when the detector
    finds no decomposition, when the decomposition found has no split term,
    and for a buffer of rank 0, whose flattened index is the zero constant. *)
Theorem empty_components_give_no_suggestion `{Host : ArithHost}
    buffer indices loops pred a :
  let iters := (collect_loops loops 0 ∅ ∅).1 in
  (∀ st index a',
     GetStrides buffer = Ok st →
     f_flatten_index (length (shape buffer)) st indices = Ok index →
     Collect index iters pred false a = Ok ([], a') →
     SuggestIndexMap buffer indices loops pred a = Ok None) ∧
  (∀ st index sums a',
     GetStrides buffer = Ok st →
     f_flatten_index (length (shape buffer)) st indices = Ok index →
     DetectIterMap [Simplify a index] iters pred false a = (sums, a') →
     no_split_terms sums →
     Collect index iters pred false a = Ok ([], a') ∧
     SuggestIndexMap buffer indices loops pred a = Ok None) ∧
  (shape buffer = [] → strides buffer = [] →
     GetStrides buffer = Ok [] ∧
     f_flatten_index (length (shape buffer)) [] indices = Ok (make_const 0) ∧
     (no_split_terms (DetectIterMap [Simplify a (make_const 0)] iters pred false a).1 →
      SuggestIndexMap buffer indices loops pred a = Ok None)).
Proof.
  intros iters.
  assert (Hnil : ∀ st index a',
     GetStrides buffer = Ok st →
     f_flatten_index (length (shape buffer)) st indices = Ok index →
     Collect index iters pred false a = Ok ([], a') →
     SuggestIndexMap buffer indices loops pred a = Ok None).
  { intros st index a' Hst Hidx Hc. by eapply SuggestIndexMap_Collect_nil. }
  assert (Hdetect : ∀ st index sums a',
     GetStrides buffer = Ok st →
     f_flatten_index (length (shape buffer)) st indices = Ok index →
     DetectIterMap [Simplify a index] iters pred false a = (sums, a') →
     no_split_terms sums →
     Collect index iters pred false a = Ok ([], a') ∧
     SuggestIndexMap buffer indices loops pred a = Ok None).
  { intros st index sums a' Hst Hidx Hdet Hno.
    assert (Hc : Collect index iters pred false a = Ok ([], a')).
    { destruct Hno as [->|[base ->]].
      - by apply Collect_none.
      - by rewrite (Collect_one _ _ _ _ _ _ _ Hdet). }
    split; [done|]. by eapply Hnil. }
  split; [done|]. split; [done|].
  intros Hshape Hstrides.
  assert (Hst : GetStrides buffer = Ok []).
  { unfold GetStrides. by rewrite Hstrides, Hshape. }
  assert (Hidx : f_flatten_index (length (shape buffer)) [] indices = Ok (make_const 0)).
  { by rewrite Hshape. }
  split; [done|]. split; [done|]. intros Hno.
  destruct (DetectIterMap [Simplify a (make_const 0)] iters pred false a)
    as [sums a'] eqn:Hdet.
  by eapply Hdetect.
Qed.

Lemma empty_components_give_no_suggestion_witness :
  @SuggestIndexMap (scripted_host [IterSum [] (IntImm 0)])
    (MkBuffer [] []) [] [loop_over "i" 4] const_true [] = Ok None.
Proof.
  apply (@empty_components_give_no_suggestion (scripted_host [IterSum [] (IntImm 0)])
           (MkBuffer [] []) [] [loop_over "i" 4] const_true []).
  - reflexivity.
  - reflexivity.
  - right. by exists (IntImm 0).
Defined.

(** C6 (amended): when every node of the detected decomposition has one of
    the two documented shapes and some node wrapping a direct loop variable
    has a lower factor or an extent that is not a constant, the extractor
    returns the empty list and SuggestIndexMap returns no suggestion. *)
Theorem dynamic_factor_gives_no_suggestion `{Host : ArithHost}
    buffer indices loops pred a st index s a' e
    (Hst : GetStrides buffer = Ok st)
    (Hidx : f_flatten_index (length (shape buffer)) st indices = Ok index)
    (Hdet : DetectIterMap [Simplify a index] (collect_loops loops 0 ∅ ∅).1 pred false a
            = ([s], a'))
    (Hshape : Forall (λ e, recognised e = true) (sum_nodes s))
    (He : e ∈ sum_nodes s)
    (Hvar : is_var_node e = true)
    (Hdyn : has_dynamic_factor e = true) :
  Collect index (collect_loops loops 0 ∅ ∅).1 pred false a = Ok ([], a') ∧
  SuggestIndexMap buffer indices loops pred a = Ok None.
Proof.
  assert (Hc : Collect index (collect_loops loops 0 ∅ ∅).1 pred false a = Ok ([], a')).
  { rewrite (Collect_one _ _ _ _ _ _ _ Hdet), walk_recognised by done. simpl.
    replace (existsb _ _) with true; [done|].
    symmetry. apply existsb_exists. exists e.
    split; [by apply list_elem_of_In|]. by rewrite Hvar, Hdyn. }
  split; [done|]. by eapply SuggestIndexMap_Collect_nil.
Qed.

Lemma dynamic_factor_gives_no_suggestion_witness :
  @SuggestIndexMap (scripted_host
      [IterSum [var_split "i" 1 4 1;
                IterSplit (MarkExpr (VarRef (Named "j")) (VarRef (Named "n")))
                          (IntImm 1) (VarRef (Named "n")) (IntImm 4)] (IntImm 0)])
    (MkBuffer [IntImm 64] []) [VarRef (Named "i")]
    [loop_over "i" 4; MkFor (Named "j") (IntImm 0) (VarRef (Named "n"))] const_true [] =
  Ok None.
Proof.
  set (dynamic := IterSplit (MarkExpr (VarRef (Named "j")) (VarRef (Named "n")))
                            (IntImm 1) (VarRef (Named "n")) (IntImm 4)).
  set (s := IterSum [var_split "i" 1 4 1; dynamic] (IntImm 0)).
  assert (Hshape : Forall (λ e, recognised e = true) (sum_nodes s))
    by (repeat constructor).
  assert (He : dynamic ∈ sum_nodes s) by (simpl; set_solver).
  apply (proj2 (@dynamic_factor_gives_no_suggestion (scripted_host [s])
     (MkBuffer [IntImm 64] []) [VarRef (Named "i")]
     [loop_over "i" 4; MkFor (Named "j") (IntImm 0) (VarRef (Named "n"))]
     const_true [] [IntImm 1]
     (Add (IntImm 0) (Mul (IntImm 1) (VarRef (Named "i")))) s [] dynamic
     eq_refl eq_refl eq_refl Hshape He eq_refl eq_refl)).
Defined.

(** C6, as stated, fails in two ways: a node wrapping a nested sum has a
    dynamic lower factor and a suggestion is returned all the same; a
    variable node has a dynamic extent and the walk still aborts at a node
    of undocumented shape. *)
Lemma dynamic_factor_counterexample :
  let nested :=
    IterSplit (MarkSum (IterSum [var_split "i" 1 4 1] (IntImm 0)) (IntImm 4))
              (VarRef (Named "n")) (IntImm 4) (IntImm 1) in
  let dynamic :=
    IterSplit (MarkExpr (VarRef (Named "i")) (IntImm 4))
              (IntImm 1) (VarRef (Named "n")) (IntImm 1) in
  let other :=
    IterSplit (MarkExpr (Add (VarRef (Named "i")) (IntImm 1)) (IntImm 4))
              (IntImm 1) (IntImm 4) (IntImm 1) in
  let buffer := MkBuffer [IntImm 4] [] in
  let indices := [VarRef (Named "i")] in
  let loops := [loop_over "i" 4] in
  (has_dynamic_factor nested = true ∧
   nested ∈ sum_nodes (IterSum [nested] (IntImm 0)) ∧
   @SuggestIndexMap (scripted_host [IterSum [nested] (IntImm 0)])
     buffer indices loops const_true [] =
   Ok (Some (MkIndexMap [Fresh 0]
     [FloorMod (Add (IntImm 0) (Mul (IntImm 1) (VarRef (Fresh 0)))) (IntImm 4)]))) ∧
  (has_dynamic_factor dynamic = true ∧
   dynamic ∈ sum_nodes (IterSum [dynamic; other] (IntImm 0)) ∧
   @SuggestIndexMap (scripted_host [IterSum [dynamic; other] (IntImm 0)])
     buffer indices loops const_true [] =
   Throw ICheckFailed).
Proof.
  simpl. repeat split; try reflexivity; set_solver.
Qed.

(** ** Arity of the supplied indices and strides *)

Lemma f_flatten_loop_short st indices :
  ∀ remaining i flat,
    0 < remaining → length indices < i + remaining →
    f_flatten_loop st indices i remaining flat = Throw ICheckFailed.
Proof.
  induction remaining as [|r IH]; intros i flat Hpos Hshort; [lia|]. simpl.
  unfold array_get. destruct (st !! i) as [stride|]; simpl; [|done].
  destruct (indices !! i) as [x|] eqn:Hx; simpl; [|done].
  apply lookup_lt_Some in Hx. apply IH; lia.
Qed.

Lemma f_flatten_loop_extra st indices extra :
  ∀ remaining i flat,
    i + remaining ≤ length indices →
    f_flatten_loop st (indices ++ extra) i remaining flat =
    f_flatten_loop st indices i remaining flat.
Proof.
  induction remaining as [|r IH]; intros i flat Hle; simpl; [done|].
  unfold array_get. destruct (st !! i) as [stride|]; simpl; [|done].
  rewrite lookup_app_l by lia.
  destruct (indices !! i); simpl; [|done]. apply IH. lia.
Qed.

(** X4: explicit strides whose length differs from the rank are a failed
    assertion, of GetStrides and of the whole analysis. *)
Lemma strides_arity_mismatch_aborts `{Host : ArithHost} buffer indices loops pred a :
  strides buffer ≠ [] → length (strides buffer) ≠ length (shape buffer) →
  GetStrides buffer = Throw ICheckFailed ∧
  SuggestIndexMap buffer indices loops pred a = Throw ICheckFailed.
Proof.
  intros Hne Hlen.
  assert (Hst : GetStrides buffer = Throw ICheckFailed).
  { unfold GetStrides.
    rewrite (bool_decide_eq_false_2 (strides buffer = [])) by done.
    by rewrite (bool_decide_eq_false_2 (length _ = length _)) by done. }
  split; [done|]. unfold SuggestIndexMap.
  destruct (collect_loops loops 0 ∅ ∅). by rewrite Hst.
Qed.

(** X5: fewer indices than dimensions are a failed assertion, raised by the
    bounds check of the array read. *)
Lemma short_indices_abort `{Host : ArithHost} buffer indices loops pred a :
  length indices < length (shape buffer) →
  SuggestIndexMap buffer indices loops pred a = Throw ICheckFailed.
Proof.
  intros Hshort. unfold SuggestIndexMap.
  destruct (collect_loops loops 0 ∅ ∅).
  destruct (GetStrides buffer) as [st|f] eqn:Hst; simpl.
  - unfold f_flatten_index. rewrite f_flatten_loop_short; [done|lia..].
  - unfold GetStrides in Hst.
    destruct (negb (bool_decide (strides buffer = []))).
    + unfold ICHECK in Hst. destruct (bool_decide _); by simplify_eq/=.
    + destruct (bool_decide (length (shape buffer) = 0)); [done|].
      destruct (GetStrides_loop_spec (shape buffer) (length (shape buffer))
                  (replicate (length (shape buffer)) NullExpr) (make_const 1))
        as (out & Hout & _); [lia|by rewrite length_replicate|congruence].
Qed.

(** X6: more indices than dimensions are not noticed: the surplus is never
    read and the analysis answers as it does without it. *)
Lemma surplus_indices_ignored `{Host : ArithHost} buffer indices extra loops pred a :
  length indices = length (shape buffer) →
  SuggestIndexMap buffer (indices ++ extra) loops pred a =
  SuggestIndexMap buffer indices loops pred a.
Proof.
  intros Hlen. unfold SuggestIndexMap.
  destruct (collect_loops loops 0 ∅ ∅).
  destruct (GetStrides buffer) as [st|f]; simpl; [|done].
  unfold f_flatten_index. by rewrite f_flatten_loop_extra by lia.
Qed.

(** C3: with two indices supplied for a buffer of rank 1, no assertion
    fails: SuggestIndexMap returns a remapping built from the first index
    alone. *)
Theorem surplus_index_not_asserted :
  let buffer := MkBuffer [IntImm 4] [] in
  let indices := [VarRef (Named "i"); VarRef (Named "j")] in
  length indices ≠ length (shape buffer) ∧
  @SuggestIndexMap (scripted_host [IterSum [var_split "i" 1 4 1] (IntImm 0)])
    buffer indices [loop_over "i" 4; loop_over "j" 8] const_true [] =
  Ok (Some (MkIndexMap [Fresh 0]
    [FloorMod (Add (IntImm 0) (Mul (IntImm 1) (VarRef (Fresh 0)))) (IntImm 4)])).
Proof. split; [simpl; lia|reflexivity]. Qed.

(** ** The canonical order *)

Lemma emplace_lookup m k x v :
  emplace m k x !! v =
  match m !! v with
  | Some y => Some y
  | None => if decide (k = v) then Some x else None
  end.
Proof.
  unfold emplace. destruct (m !! k) as [y|] eqn:Hk.
  - destruct (m !! v) eqn:Hv; [done|]. case_decide; [congruence|done].
  - rewrite lookup_insert. case_decide as Heq.
    + subst. by rewrite Hk.
    + by destruct (m !! v).
Qed.

Lemma collect_loops_var2id loops :
  ∀ i iters var2id v,
    (collect_loops loops i iters var2id).2 !! v =
    match var2id !! v with
    | Some k => Some k
    | None => (λ p, i + p) <$> nesting_position loops v
    end.
Proof.
  induction loops as [|loop rest IH]; intros i iters var2id v; simpl.
  - by destruct (var2id !! v).
  - rewrite IH, emplace_lookup. destruct (var2id !! v) as [k|]; [done|].
    case_decide as Heq; simpl.
    + f_equal. lia.
    + destruct (nesting_position rest v); simpl; [f_equal; lia|done].
Qed.

Lemma var2id_nesting_position loops v :
  (collect_loops loops 0 ∅ ∅).2 !! v = nesting_position loops v.
Proof.
  rewrite collect_loops_var2id, lookup_empty.
  by destruct (nesting_position loops v).
Qed.

Lemma split_less_Ok split_exprs var2id a b r :
  split_less split_exprs var2id a b = Ok r →
  ∃ ka kb, sort_key split_exprs var2id a = Some ka ∧
           sort_key split_exprs var2id b = Some kb ∧
           r = key_less ka kb.
Proof.
  unfold split_less, sort_key, vector_get, map_at, key_less.
  destruct (split_exprs !! a) as [ea|]; simpl; [|done].
  destruct (split_exprs !! b) as [eb|]; simpl; [|done].
  destruct (var2id !! source ea) as [ia|]; simpl; [|done].
  destruct (var2id !! source eb) as [ib|]; simpl; [|done].
  intros Hr. exists (ia, lower_factor ea), (ib, lower_factor eb). simpl.
  repeat split. destruct (negb _); by simplify_eq.
Qed.

Lemma split_less_keyed split_exprs var2id a b ka kb :
  sort_key split_exprs var2id a = Some ka →
  sort_key split_exprs var2id b = Some kb →
  split_less split_exprs var2id a b = Ok (key_less ka kb).
Proof.
  unfold split_less, sort_key, vector_get, map_at, key_less.
  destruct (split_exprs !! a) as [ea|]; simpl; [|done].
  destruct (split_exprs !! b) as [eb|]; simpl; [|done].
  destruct (var2id !! source ea) as [ia|]; simpl; [|done].
  destruct (var2id !! source eb) as [ib|]; simpl; [|done].
  intros [= <-] [= <-]. simpl. by destruct (negb _).
Qed.

Lemma key_less_asym ka kb : key_less ka kb = true → key_less kb ka = false.
Proof.
  unfold key_less. destruct ka as [ia la], kb as [ib lb]; simpl.
  repeat case_bool_decide; simpl; try done; lia.
Qed.

Lemma key_less_negtrans ka kb kc :
  key_less kc kb = false → key_less kb ka = false → key_less kc ka = false.
Proof.
  unfold key_less. destruct ka as [ia la], kb as [ib lb], kc as [ic lc]; simpl.
  repeat case_bool_decide; simpl; try done; lia.
Qed.

Section Sorting.
Variables (split_exprs : list SplitExpr) (var2id : gmap Var nat).

Local Abbreviation less := (split_less split_exprs var2id).
Local Abbreviation R := (may_follow split_exprs var2id).

Lemma sort_insert_spec x sorted out :
  StronglySorted R sorted →
  sort_insert less x sorted = Ok out →
  out ≡ₚ x :: sorted ∧ StronglySorted R out.
Proof.
  revert out. induction sorted as [|y rest IH]; intros out Hsorted; simpl.
  - intros [= <-]. split; [done|]. by repeat constructor.
  - destruct (less y x) as [y_first|] eqn:Hless; simpl; [|done].
    apply split_less_Ok in Hless as (ky & kx & Hky & Hkx & ->).
    apply StronglySorted_inv in Hsorted as [Hrest Hy].
    destruct (key_less ky kx) eqn:Hlt.
    + destruct (sort_insert less x rest) as [tail|] eqn:Htail; simpl; [|done].
      intros [= <-]. destruct (IH tail Hrest eq_refl) as [Hperm Htl].
      split; [by rewrite Hperm, Permutation_swap|].
      constructor; [done|]. rewrite Hperm. constructor; [|done].
      exists ky, kx. eauto using key_less_asym.
    + intros [= <-]. split; [done|].
      constructor; [by constructor|]. constructor.
      * by exists kx, ky.
      * eapply Forall_impl; [exact Hy|]. intros z (ky' & kz & Hky' & Hkz & Hz).
        exists kx, kz. repeat split; [done..|].
        assert (ky' = ky) as -> by congruence.
        by eapply key_less_negtrans.
Qed.

Lemma std_sort_spec l out :
  std_sort less l = Ok out → out ≡ₚ l ∧ StronglySorted R out.
Proof.
  revert out. induction l as [|x rest IH]; intros out; simpl.
  - intros [= <-]. split; [done|constructor].
  - destruct (std_sort less rest) as [sorted|] eqn:Hs; simpl; [|done].
    destruct (IH sorted eq_refl) as [Hperm Hsorted].
    intros Hins. apply sort_insert_spec in Hins as [Hperm' Hout]; [|done].
    split; [by rewrite Hperm', Hperm|done].
Qed.

Lemma sort_insert_total x sorted :
  Forall (λ k, is_Some (sort_key split_exprs var2id k)) (x :: sorted) →
  ∃ out, sort_insert less x sorted = Ok out.
Proof.
  intros [[kx Hkx] Hall]%Forall_cons.
  induction Hall as [|y rest [ky Hky] _ IH]; cbn [sort_insert]; [by eexists|].
  pose proof (split_less_keyed _ _ _ _ _ _ Hky Hkx) as Hless.
  fold less in Hless. rewrite Hless. simpl.
  destruct (key_less ky kx); [|by eexists].
  destruct IH as [tail ->]. by eexists.
Qed.

Lemma std_sort_total l :
  Forall (λ k, is_Some (sort_key split_exprs var2id k)) l →
  ∃ out, std_sort less l = Ok out.
Proof.
  induction 1 as [|x rest Hx Hrest [sorted Hs]]; simpl; [by eexists|].
  rewrite Hs. simpl. apply sort_insert_total. constructor; [done|].
  apply std_sort_spec in Hs as [Hperm _]. by rewrite Hperm.
Qed.

End Sorting.

Lemma StronglySorted_lookup {A} (R : relation A) l p q a b :
  StronglySorted R l → p < q → l !! p = Some a → l !! q = Some b → R a b.
Proof.
  intros Hsorted. revert p q. induction Hsorted as [|x l _ IH Hx]; intros p q Hpq Hp Hq.
  - done.
  - destruct q as [|q]; [lia|]. destruct p as [|p]; simpl in *.
    + simplify_eq. eapply Forall_forall in Hx; [done|]. by eapply list_elem_of_lookup_2.
    + eapply IH; [|done..]. lia.
Qed.

Lemma sort_key_Some loops split_exprs k key :
  sort_key split_exprs (collect_loops loops 0 ∅ ∅).2 k = Some key ↔
  ∃ e pos, split_exprs !! k = Some e ∧
           nesting_position loops (source e) = Some pos ∧
           key = (pos, lower_factor e).
Proof.
  unfold sort_key. destruct (split_exprs !! k) as [e|]; simpl.
  - rewrite var2id_nesting_position.
    destruct (nesting_position loops (source e)) as [pos|] eqn:Hpos; simpl.
    + split.
      * intros [= <-]. by exists e, pos.
      * intros (e' & pos' & [= <-] & Hpos' & ->). congruence.
    + split; [done|]. intros (e' & pos' & [= <-] & Hpos' & _). congruence.
  - split; [done|]. by intros (e' & pos' & [=] & _).
Qed.

(** C4: the order computed by the synthesizer is a rearrangement of the
    component indices in which a component whose source variable has the
    earlier nesting position in the loop sequence comes first and, of two
    components with the same source variable, the one with the larger
    lower factor comes first; it is computed whenever every source variable
    is a loop variable. *)
Theorem canonical_order (loops : list For) (split_exprs : list SplitExpr)
    (order : list nat)
    (Hsort : std_sort (split_less split_exprs (collect_loops loops 0 ∅ ∅).2)
                      (seq 0 (length split_exprs)) = Ok order) :
  order ≡ₚ seq 0 (length split_exprs) ∧
  ∀ p q a b ea eb,
    order !! p = Some a → order !! q = Some b →
    split_exprs !! a = Some ea → split_exprs !! b = Some eb →
    (∀ pa pb, nesting_position loops (source ea) = Some pa →
              nesting_position loops (source eb) = Some pb →
              pa < pb → p < q) ∧
    (source ea = source eb → (lower_factor eb < lower_factor ea)%Z → p < q).
Proof.
  apply std_sort_spec in Hsort as [Hperm Hsorted]. split; [done|].
  assert (Hnodup : NoDup order) by (rewrite Hperm; apply NoDup_seq).
  intros p q a b ea eb Hp Hq Hea Heb.
  assert (Hrev : q < p → ∃ pa pb,
            nesting_position loops (source ea) = Some pa ∧
            nesting_position loops (source eb) = Some pb ∧
            key_less (pa, lower_factor ea) (pb, lower_factor eb) = false).
  { intros Hqp.
    destruct (StronglySorted_lookup _ _ _ _ _ _ Hsorted Hqp Hq Hp)
      as (kb & ka & Hkb & Hka & Hless).
    apply sort_key_Some in Hka as (ea' & pa & Hea' & Hpa & ->).
    apply sort_key_Some in Hkb as (eb' & pb & Heb' & Hpb & ->).
    simplify_eq. by exists pa, pb. }
  assert (Hsame : p = q → ea = eb).
  { intros ->. congruence. }
  split.
  - intros pa pb Hpa Hpb Hlt.
    destruct (Nat.lt_trichotomy p q) as [?|[Heq|Hqp]]; [done|..].
    + apply Hsame in Heq as ->. simplify_eq. lia.
    + destruct (Hrev Hqp) as (pa' & pb' & Hpa' & Hpb' & Hless). simplify_eq.
      unfold key_less in Hless. simpl in Hless.
      repeat case_bool_decide; simpl in *; try done; lia.
  - intros Hsrc Hlf.
    destruct (Nat.lt_trichotomy p q) as [?|[Heq|Hqp]]; [done|..].
    + apply Hsame in Heq as ->. lia.
    + destruct (Hrev Hqp) as (pa' & pb' & Hpa' & Hpb' & Hless).
      rewrite Hsrc in Hpa'. simplify_eq.
      unfold key_less in Hless. simpl in Hless.
      repeat case_bool_decide; simpl in *; try done; lia.
Qed.

(** The order exists whenever the sources are loop variables. *)
Lemma canonical_order_exists (loops : list For) (split_exprs : list SplitExpr) :
  Forall (λ e, is_Some (nesting_position loops (source e))) split_exprs →
  ∃ order, std_sort (split_less split_exprs (collect_loops loops 0 ∅ ∅).2)
                    (seq 0 (length split_exprs)) = Ok order.
Proof.
  intros Hall. apply std_sort_total, Forall_forall. intros k Hk%elem_of_seq.
  destruct (lookup_lt_is_Some_2 split_exprs k) as [e He]; [lia|].
  eapply Forall_forall in Hall as [pos Hpos]; [|by eapply list_elem_of_lookup_2].
  exists (pos, lower_factor e). apply sort_key_Some. by exists e, pos.
Qed.

Lemma canonical_order_witness :
  let loops := [loop_over "i" 4; loop_over "j" 16] in
  let split_exprs := [MkSplitExpr (Named "j") 1 4; MkSplitExpr (Named "i") 1 4;
                      MkSplitExpr (Named "j") 4 4] in
  std_sort (split_less split_exprs (collect_loops loops 0 ∅ ∅).2) (seq 0 3)
    = Ok [1; 2; 0] ∧
  [1; 2; 0] ≡ₚ seq 0 3.
Proof.
  intros loops split_exprs.
  split; [reflexivity|].
  apply (canonical_order loops split_exprs [1; 2; 0] eq_refl).
Defined.

(** ** The remapping function *)

Lemma GetStrides_length buffer st :
  GetStrides buffer = Ok st → length st = length (shape buffer).
Proof.
  unfold GetStrides.
  destruct (negb (bool_decide (strides buffer = []))).
  - unfold ICHECK. case_bool_decide; simpl; [|done]. by intros [= <-].
  - case_bool_decide as Hz; [intros [= <-]; by rewrite Hz|].
    destruct (GetStrides_loop_spec (shape buffer) (length (shape buffer))
                (replicate (length (shape buffer)) NullExpr) (make_const 1))
      as (out & Hout & Hlen & _); [lia|by rewrite length_replicate|].
    rewrite Hout. by intros [= <-].
Qed.

Lemma f_flatten_loop_total st indices :
  ∀ remaining i flat,
    i + remaining ≤ length st → i + remaining ≤ length indices →
    ∃ out, f_flatten_loop st indices i remaining flat = Ok out.
Proof.
  induction remaining as [|r IH]; intros i flat Hst Hidx; simpl; [by eexists|].
  destruct (array_get_lt st i) as (stride & -> & _); [lia|].
  destruct (array_get_lt indices i) as (x & -> & _); [lia|]. simpl.
  apply IH; lia.
Qed.

Lemma bind_loop_total `{Host : ArithHost} (indices : list Var) sh :
  ∀ remaining i a,
    i + remaining ≤ length indices → i + remaining ≤ length sh →
    ∃ a', bind_loop indices sh i remaining a = Ok a'.
Proof.
  induction remaining as [|r IH]; intros i a Hidx Hsh; simpl; [by eexists|].
  destruct (array_get_lt indices i) as (var & -> & _); [lia|].
  destruct (array_get_lt sh i) as (dim & -> & _); [lia|]. simpl.
  apply IH; lia.
Qed.

Lemma to_int_fits v : fits_int v → to_int v = v.
Proof.
  unfold fits_int, to_int. intros Hv.
  rewrite Z.mod_small; lia.
Qed.

Lemma floormod_Ok a b :
  to_int b ≠ 0%Z → floormod a b = Ok (FloorMod a (make_const (to_int b))).
Proof. intros Hb. unfold floormod. by rewrite bool_decide_eq_false_2. Qed.

Lemma floordiv_Ok a b :
  to_int b ≠ 0%Z → floordiv a b = Ok (FloorDiv a (make_const (to_int b))).
Proof. intros Hb. unfold floordiv. by rewrite bool_decide_eq_false_2. Qed.

Lemma floormod_zero a b : to_int b = 0%Z → floormod a b = Throw ICheckFailed.
Proof. intros Hb. unfold floormod. by rewrite bool_decide_eq_true_2. Qed.

(** The loop of step 5.1 runs through exactly when no extent is zero as an
    [int]; otherwise the division check fails. *)
Lemma split_loop_total `{Host : ArithHost} a split_exprs :
  ∀ n index split,
    n ≤ length split_exprs →
    Forall (λ e, to_int (extent e) ≠ 0%Z) (take n split_exprs) →
    ∃ out, split_loop a split_exprs n index split = Ok out ∧
           length out = length split + n.
Proof.
  induction n as [|i IH]; intros index split Hn Hnz; simpl.
  - exists split. by rewrite Nat.add_0_r.
  - destruct (lookup_lt_is_Some_2 split_exprs i) as [e He]; [lia|].
    rewrite (take_S_r _ _ _ He) in Hnz.
    apply Forall_app in Hnz as [Hnz [He0 _]%Forall_cons].
    unfold vector_get. rewrite He. simpl.
    rewrite floormod_Ok, floordiv_Ok by done. simpl.
    edestruct IH as (out & -> & Hlen); [lia|done|].
    exists out. split; [done|]. rewrite Hlen, length_app. simpl. lia.
Qed.

Lemma split_loop_Ok_nonzero `{Host : ArithHost} a split_exprs :
  ∀ n index split out,
    n ≤ length split_exprs →
    split_loop a split_exprs n index split = Ok out →
    Forall (λ e, to_int (extent e) ≠ 0%Z) (take n split_exprs).
Proof.
  induction n as [|i IH]; intros index split out Hn; simpl.
  - intros _. apply Forall_nil_2.
  - destruct (lookup_lt_is_Some_2 split_exprs i) as [e He]; [lia|].
    unfold vector_get. rewrite He. simpl.
    destruct (decide (to_int (extent e) = 0%Z)) as [Hz|Hnz].
    { by rewrite floormod_zero. }
    rewrite floormod_Ok, floordiv_Ok by done. simpl. intros Hout.
    rewrite (take_S_r _ _ _ He). apply Forall_app. split.
    + eapply IH; [|done]. lia.
    + by constructor.
Qed.

Lemma split_loop_Throw `{Host : ArithHost} a split_exprs f :
  ∀ n index split,
    n ≤ length split_exprs →
    split_loop a split_exprs n index split = Throw f → f = ICheckFailed.
Proof.
  induction n as [|i IH]; intros index split Hn; simpl; [done|].
  destruct (lookup_lt_is_Some_2 split_exprs i) as [e He]; [lia|].
  unfold vector_get. rewrite He. simpl.
  destruct (decide (to_int (extent e) = 0%Z)) as [Hz|Hnz].
  { rewrite floormod_zero by done. by intros [= <-]. }
  rewrite floormod_Ok, floordiv_Ok by done. simpl. apply IH. lia.
Qed.

(** The values of the remainders: the digits of the flattened position for
    the extents as the divisions see them. *)
Lemma split_loop_values `{Host : ArithHost} a split_exprs env
    (Hsound : ∀ e, eval env (Simplify a e) = eval env e) :
  ∀ n index split out,
    n ≤ length split_exprs →
    split_loop a split_exprs n index split = Ok out →
    eval env <$> out =
      (eval env <$> split) ++
      digits (reverse ((λ e, to_int (extent e)) <$> take n split_exprs)) (eval env index).
Proof.
  induction n as [|i IH]; intros index split out Hn; simpl.
  - intros [= <-]. by rewrite app_nil_r.
  - destruct (lookup_lt_is_Some_2 split_exprs i) as [e He]; [lia|].
    unfold vector_get. rewrite He. simpl.
    destruct (decide (to_int (extent e) = 0%Z)) as [Hz|Hnz].
    { by rewrite floormod_zero. }
    rewrite floormod_Ok, floordiv_Ok by done. simpl. intros Hout.
    rewrite (IH _ _ _ ltac:(lia) Hout).
    rewrite (take_S_r _ _ _ He), !fmap_app, reverse_app. simpl.
    rewrite !Hsound. simpl. rewrite !Hsound. by rewrite <- app_assoc.
Qed.

Lemma reorder_loop_spec (split : list PrimExpr) (order : list nat) :
  Forall (λ k, k < length split) order →
  ∀ remaining i results,
    i + remaining ≤ length order →
    ∃ picked, reorder_loop split order i remaining results = Ok (results ++ picked) ∧
      length picked = remaining ∧
      ∀ k j, k < remaining → order !! (i + k) = Some j → picked !! k = split !! j.
Proof.
  intros Hrange. induction remaining as [|r IH]; intros i results Hi; simpl.
  - exists []. rewrite app_nil_r. split; [done|]. split; [done|]. intros; lia.
  - destruct (lookup_lt_is_Some_2 order i) as [k Hk]; [lia|].
    assert (Hlt : k < length split)
      by (eapply Forall_forall in Hrange; [done|by eapply list_elem_of_lookup_2]).
    destruct (lookup_lt_is_Some_2 split k Hlt) as [x Hx].
    unfold vector_get. rewrite Hk. simpl. rewrite Hx. simpl.
    destruct (IH (S i) (results ++ [x])) as (picked & -> & Hlen & Hpick); [lia|].
    exists (x :: picked). split; [by rewrite <- app_assoc|]. split; [simpl; lia|].
    intros k' j Hk' Hj. destruct k' as [|k']; simpl.
    + rewrite Nat.add_0_r in Hj. by simplify_eq.
    + apply Hpick; [lia|]. by rewrite <- Hj, Nat.add_succ_comm.
Qed.

Lemma order_in_range (order : list nat) n :
  order ≡ₚ seq 0 n → length order = n ∧ Forall (λ k, k < n) order.
Proof.
  intros Hperm. split.
  - by rewrite Hperm, length_seq.
  - rewrite Hperm. apply Forall_forall. intros k Hk%elem_of_seq. lia.
Qed.

Lemma f_alter_layout_arity_mismatch `{Host : ArithHost}
    flatten split_exprs order sh a (coords : list Var) :
  length coords ≠ length sh →
  f_alter_layout flatten split_exprs order sh a coords = Throw ICheckFailed.
Proof.
  intros Hne. unfold f_alter_layout. by rewrite bool_decide_eq_false_2.
Qed.

Lemma f_alter_layout_Ok_inv `{Host : ArithHost}
    flatten split_exprs order sh a (coords : list Var) out :
  f_alter_layout flatten split_exprs order sh a coords = Ok out →
  length coords = length sh ∧
  ∃ a' flat split,
    bind_loop coords sh 0 (length coords) a = Ok a' ∧
    flatten (VarRef <$> coords) = Ok flat ∧
    split_loop a' split_exprs (length split_exprs) flat [] = Ok split ∧
    reorder_loop (reverse split) order 0 (length split_exprs) [] = Ok out.
Proof.
  unfold f_alter_layout. case_bool_decide as Hlen; simpl; [|done].
  intros Hout. split; [done|].
  apply bind_Ok in Hout as (a' & Ha' & Hout).
  apply bind_Ok in Hout as (flat & Hflat & Hout).
  apply bind_Ok in Hout as (split & Hsplit & Hout).
  by exists a', flat, split.
Qed.

(** On a tuple of the right arity the remapping function returns one
    expression per split component, provided no extent is zero as an [int]. *)
Lemma f_alter_layout_total `{Host : ArithHost} buffer st split_exprs order a coords :
  GetStrides buffer = Ok st →
  order ≡ₚ seq 0 (length split_exprs) →
  length coords = length (shape buffer) →
  Forall (λ e, to_int (extent e) ≠ 0%Z) split_exprs →
  ∃ out,
    f_alter_layout (f_flatten_index (length (shape buffer)) st) split_exprs order
      (shape buffer) a coords = Ok out ∧
    length out = length split_exprs.
Proof.
  intros Hst Hperm Hlen Hnz.
  apply GetStrides_length in Hst as Hstlen.
  apply order_in_range in Hperm as [Holen Hrange].
  unfold f_alter_layout. rewrite bool_decide_eq_true_2 by done. simpl.
  destruct (bind_loop_total coords (shape buffer) (length coords) 0 a) as [a' ->];
    [lia..|]. simpl.
  destruct (f_flatten_loop_total st (VarRef <$> coords) (length (shape buffer)) 0
              (make_const 0)) as [flat Hflat]; [lia|rewrite length_fmap; lia|].
  unfold f_flatten_index. rewrite Hflat. simpl.
  destruct (split_loop_total a' split_exprs (length split_exprs) flat [])
    as (split & -> & Hsplen); [lia|by rewrite firstn_all|]. simpl.
  destruct (reorder_loop_spec (reverse split) order) with
    (remaining := length split_exprs) (i := 0) (results := @nil PrimExpr)
    as (out & -> & Houtlen & _).
  { by rewrite length_reverse, Hsplen. }
  { lia. }
  by exists out.
Qed.

(** Its result does not depend on the tuple: once it has returned, no
    extent is zero as an [int]. *)
Lemma f_alter_layout_Ok_nonzero `{Host : ArithHost}
    flatten split_exprs order sh a (coords : list Var) out :
  f_alter_layout flatten split_exprs order sh a coords = Ok out →
  Forall (λ e, to_int (extent e) ≠ 0%Z) split_exprs.
Proof.
  intros (_ & a' & flat & split & _ & _ & Hsplit & _)%f_alter_layout_Ok_inv.
  apply split_loop_Ok_nonzero in Hsplit; [|done]. by rewrite firstn_all in Hsplit.
Qed.

Lemma f_alter_layout_Throw `{Host : ArithHost} buffer st split_exprs order a coords f :
  GetStrides buffer = Ok st →
  order ≡ₚ seq 0 (length split_exprs) →
  f_alter_layout (f_flatten_index (length (shape buffer)) st) split_exprs order
    (shape buffer) a coords = Throw f →
  f = ICheckFailed.
Proof.
  intros Hst Hperm.
  destruct (decide (length coords = length (shape buffer))) as [Hlen|Hlen].
  2: { rewrite f_alter_layout_arity_mismatch by done. by intros [= <-]. }
  destruct (decide (Forall (λ e, to_int (extent e) ≠ 0%Z) split_exprs)) as [Hnz|Hz].
  { destruct (f_alter_layout_total buffer st split_exprs order a coords Hst Hperm Hlen Hnz)
      as (out & -> & _). done. }
  apply GetStrides_length in Hst as Hstlen.
  unfold f_alter_layout. rewrite bool_decide_eq_true_2 by done. simpl.
  destruct (bind_loop_total coords (shape buffer) (length coords) 0 a) as [a' ->];
    [lia..|]. simpl.
  destruct (f_flatten_loop_total st (VarRef <$> coords) (length (shape buffer)) 0
              (make_const 0)) as [flat Hflat]; [lia|rewrite length_fmap; lia|].
  unfold f_flatten_index. rewrite Hflat. simpl.
  destruct (split_loop a' split_exprs (length split_exprs) flat []) as [split|f'] eqn:Hsplit;
    simpl.
  - apply split_loop_Ok_nonzero in Hsplit; [|done]. by rewrite firstn_all in Hsplit.
  - intros [= <-]. by eapply split_loop_Throw.
Qed.

(** Binding ranges that the valuation is within keeps the analyzer in a
    state that admits the valuation. *)
Lemma bind_loop_admits `{Host : ArithHost} (admits : Analyzer → Prop) env
    (coords : list Var) sh
    (Hbind : ∀ a v d, admits a → (0 ≤ env v < eval env d)%Z →
             admits (Bind a v (FromMinExtent (make_const 0) d)))
    (Hrange : ∀ i v d, coords !! i = Some v → sh !! i = Some d →
              (0 ≤ env v < eval env d)%Z) :
  ∀ remaining i a a',
    bind_loop coords sh i remaining a = Ok a' → admits a → admits a'.
Proof.
  induction remaining as [|r IH]; intros i a a'; simpl.
  - by intros [= <-].
  - unfold array_get. destruct (coords !! i) as [v|] eqn:Hv; simpl; [|done].
    destruct (sh !! i) as [d|] eqn:Hd; simpl; [|done].
    intros Ha' Ha. eapply IH; [done|]. apply Hbind; [done|]. by eapply Hrange.
Qed.

(** What the remapping function computes.  [admits] says which analyzer
    states admit the valuation [env]: the simplifier has to preserve values
    in those states only. *)
Lemma f_alter_layout_values `{Host : ArithHost} (admits : Analyzer → Prop)
    buffer st split_exprs order a coords env out :
  GetStrides buffer = Ok st →
  order ≡ₚ seq 0 (length split_exprs) →
  f_alter_layout (f_flatten_index (length (shape buffer)) st) split_exprs order
    (shape buffer) a coords = Ok out →
  admits a →
  (∀ a v d, admits a → (0 ≤ env v < eval env d)%Z →
            admits (Bind a v (FromMinExtent (make_const 0) d))) →
  (∀ a e, admits a → eval env (Simplify a e) = eval env e) →
  (∀ i v d, coords !! i = Some v → shape buffer !! i = Some d →
            (0 ≤ env v < eval env d)%Z) →
  ∃ flat,
    f_flatten_index (length (shape buffer)) st (VarRef <$> coords) = Ok flat ∧
    length out = length split_exprs ∧
    ∀ k j, order !! k = Some j →
      (eval env <$> out) !! k =
      digits_reversed ((λ e, to_int (extent e)) <$> split_exprs) (eval env flat) !! j.
Proof.
  intros Hst Hperm Hout Ha Hbind Hsound Hrange.
  apply f_alter_layout_Ok_inv in Hout
    as (Hlen & a' & flat & split & Ha' & Hflat & Hsplit & Hout).
  apply order_in_range in Hperm as [Holen Horder].
  assert (Hadm : admits a').
  { eapply (bind_loop_admits admits env coords (shape buffer) Hbind Hrange);
      [exact Ha'|exact Ha]. }
  pose proof (split_loop_values a' split_exprs env (λ e, Hsound a' e Hadm) _ _ _ _
                (Nat.le_refl _) Hsplit) as Hval.
  destruct (split_loop_total a' split_exprs (length split_exprs) flat [])
    as (split' & Hsplit' & Hsplen); [lia| |].
  { rewrite firstn_all. eapply f_alter_layout_Ok_nonzero.
    unfold f_alter_layout. rewrite bool_decide_eq_true_2 by done. simpl.
    rewrite Ha'. simpl. rewrite Hflat. simpl. rewrite Hsplit. simpl. exact Hout. }
  assert (split' = split) as -> by congruence.
  destruct (reorder_loop_spec (reverse split) order) with
    (remaining := length split_exprs) (i := 0) (results := @nil PrimExpr)
    as (picked & Hpicked & Hpicklen & Hpick).
  { by rewrite length_reverse, Hsplen. }
  { lia. }
  assert (picked = out) as -> by (simpl in Hpicked; congruence).
  exists flat. split; [done|]. split; [done|].
  intros k j Hk.
  assert (Hklt : k < length split_exprs) by (apply lookup_lt_Some in Hk; lia).
  rewrite list_lookup_fmap, (Hpick k j Hklt Hk), <- list_lookup_fmap.
  unfold digits_reversed. rewrite fmap_reverse, Hval. simpl.
  by rewrite firstn_all.
Qed.

(** ** Digits *)

Lemma digits_reversed_snoc exts e flat :
  digits_reversed (exts ++ [e]) flat =
  digits_reversed exts (flat `div` e)%Z ++ [(flat `mod` e)%Z].
Proof. unfold digits_reversed. rewrite reverse_snoc. simpl. by rewrite reverse_cons. Qed.

Lemma digits_reversed_length exts : ∀ flat, length (digits_reversed exts flat) = length exts.
Proof.
  induction exts as [|e exts IH] using rev_ind; intros flat; [done|].
  rewrite digits_reversed_snoc, !length_app, IH. done.
Qed.

Lemma weight_nonneg exts k : Forall (λ e, 0 ≤ e)%Z exts → (0 ≤ weight exts k)%Z.
Proof.
  intros Hall. unfold weight.
  assert (Hdrop : Forall (λ e, 0 ≤ e)%Z (drop (S k) exts)) by by apply Forall_drop.
  induction Hdrop; simpl; lia.
Qed.

Lemma weight_snoc exts e k :
  k < length exts → weight (exts ++ [e]) k = (weight exts k * e)%Z.
Proof.
  intros Hk. unfold weight. rewrite drop_app_le by lia.
  induction (drop (S k) exts) as [|x l IH]; simpl; lia.
Qed.

Lemma weight_last exts e : weight (exts ++ [e]) (length exts) = 1%Z.
Proof. unfold weight. by rewrite drop_ge by (rewrite length_app; simpl; lia). Qed.

(** The digit of index [j] is the flattened position divided by the weight
    of the digit, modulo its extent. *)
Lemma digits_reversed_lookup exts :
  Forall (λ e, 0 ≤ e)%Z exts →
  ∀ flat j e, exts !! j = Some e →
    digits_reversed exts flat !! j = Some ((flat `div` weight exts j) `mod` e)%Z.
Proof.
  induction exts as [|x exts IH] using rev_ind; intros Hall flat j e Hj; [done|].
  apply Forall_app in Hall as [Hexts [Hx _]%Forall_cons].
  rewrite digits_reversed_snoc.
  destruct (decide (j < length exts)) as [Hlt|Hge].
  - rewrite lookup_app_l in Hj by done.
    rewrite lookup_app_l by by rewrite digits_reversed_length.
    rewrite (IH Hexts _ _ _ Hj), weight_snoc by done.
    rewrite Zdiv.Zdiv_Zdiv by auto using weight_nonneg.
    by rewrite (Z.mul_comm x).
  - apply lookup_lt_Some in Hj as Hlen. rewrite length_app in Hlen. simpl in Hlen.
    assert (j = length exts) as -> by lia.
    rewrite list_lookup_middle in Hj by done. simplify_eq.
    rewrite list_lookup_middle by by rewrite digits_reversed_length.
    by rewrite weight_last, Z.div_1_r.
Qed.

(** The steps behind a suggestion. *)
Lemma SuggestIndexMap_Some_inv `{Host : ArithHost} buffer indices loops pred a m :
  SuggestIndexMap buffer indices loops pred a = Ok (Some m) →
  ∃ st index split_exprs a' order,
    GetStrides buffer = Ok st ∧
    f_flatten_index (length (shape buffer)) st indices = Ok index ∧
    Collect index (collect_loops loops 0 ∅ ∅).1 pred false a = Ok (split_exprs, a') ∧
    std_sort (split_less split_exprs (collect_loops loops 0 ∅ ∅).2)
             (seq 0 (length split_exprs)) = Ok order ∧
    initial_indices m = Fresh <$> seq 0 (length (shape buffer)) ∧
    f_alter_layout (f_flatten_index (length (shape buffer)) st)
      split_exprs order (shape buffer) a' (initial_indices m) = Ok (final_indices m).
Proof.
  intros Hsuggest.
  destruct (GetStrides buffer) as [st|f] eqn:Hst.
  2: { unfold SuggestIndexMap in Hsuggest.
       destruct (collect_loops loops 0 ∅ ∅). by rewrite Hst in Hsuggest. }
  destruct (f_flatten_index (length (shape buffer)) st indices) as [index|f] eqn:Hidx.
  2: { unfold SuggestIndexMap in Hsuggest.
       destruct (collect_loops loops 0 ∅ ∅). rewrite Hst in Hsuggest. simpl in Hsuggest.
       by rewrite Hidx in Hsuggest. }
  rewrite (SuggestIndexMap_steps _ _ _ _ _ _ _ Hst Hidx) in Hsuggest.
  apply bind_Ok in Hsuggest as ([split_exprs a'] & Hcollect & Hsuggest).
  case_bool_decide; [done|].
  apply bind_Ok in Hsuggest as (order & Hsort & Hsuggest).
  apply bind_Ok in Hsuggest as (m' & Hfrom & [= <-]).
  unfold FromFunc in Hfrom.
  apply bind_Ok in Hfrom as (final & Hfinal & [= <-]). simpl.
  by exists st, index, split_exprs, a', order.
Qed.

(** A suggestion is made whenever the extractor returns components whose
    sources are loop variables and whose extents are not zero as an [int]. *)
Lemma SuggestIndexMap_succeeds `{Host : ArithHost}
    buffer indices loops pred a st index split_exprs a' :
  GetStrides buffer = Ok st →
  f_flatten_index (length (shape buffer)) st indices = Ok index →
  Collect index (collect_loops loops 0 ∅ ∅).1 pred false a = Ok (split_exprs, a') →
  split_exprs ≠ [] →
  Forall (λ e, is_Some (nesting_position loops (source e))) split_exprs →
  Forall (λ e, to_int (extent e) ≠ 0%Z) split_exprs →
  ∃ m, SuggestIndexMap buffer indices loops pred a = Ok (Some m).
Proof.
  intros Hst Hidx Hcollect Hne Hvars Hnz.
  rewrite (SuggestIndexMap_steps _ _ _ _ _ _ _ Hst Hidx), Hcollect. simpl.
  rewrite bool_decide_eq_false_2 by done.
  destruct (canonical_order_exists loops split_exprs Hvars) as [order Hsort].
  rewrite Hsort. simpl. apply std_sort_spec in Hsort as [Hperm _].
  destruct (f_alter_layout_total buffer st split_exprs order a'
              (Fresh <$> seq 0 (length (shape buffer))) Hst Hperm)
    as (out & Hout & _); [by rewrite length_fmap, length_seq|done|].
  unfold FromFunc. rewrite Hout. simpl. by eexists.
Qed.

(** C1 (amended): the remapping function returned by a successful call
    takes the tuple of original per-dimension coordinates, whose arity is
    the buffer rank (any other arity is a failed assertion), and returns the
    tuple of new coordinates, whose arity is the number of split components. *)
Theorem remapping_arity `{Host : ArithHost} buffer indices loops pred a m
    (Hsuggest : SuggestIndexMap buffer indices loops pred a = Ok (Some m)) :
  ∃ st index split_exprs a' order,
    GetStrides buffer = Ok st ∧
    f_flatten_index (length (shape buffer)) st indices = Ok index ∧
    Collect index (collect_loops loops 0 ∅ ∅).1 pred false a = Ok (split_exprs, a') ∧
    std_sort (split_less split_exprs (collect_loops loops 0 ∅ ∅).2)
             (seq 0 (length split_exprs)) = Ok order ∧
    let remap := f_alter_layout (f_flatten_index (length (shape buffer)) st)
                   split_exprs order (shape buffer) a' in
    remap (initial_indices m) = Ok (final_indices m) ∧
    length (initial_indices m) = length (shape buffer) ∧
    length (final_indices m) = length split_exprs ∧
    ∀ coords,
      (length coords = length (shape buffer) →
       ∃ out, remap coords = Ok out ∧ length out = length split_exprs) ∧
      (length coords ≠ length (shape buffer) → remap coords = Throw ICheckFailed).
Proof.
  apply SuggestIndexMap_Some_inv in Hsuggest
    as (st & index & split_exprs & a' & order & Hst & Hidx & Hcollect & Hsort & Hinit & Hfinal).
  exists st, index, split_exprs, a', order. do 4 (split; [done|]).
  apply std_sort_spec in Hsort as [Hperm _].
  assert (Harity : ∀ coords, length coords = length (shape buffer) →
            ∃ out, f_alter_layout (f_flatten_index (length (shape buffer)) st)
                     split_exprs order (shape buffer) a' coords = Ok out ∧
                   length out = length split_exprs).
  { intros coords Hlen. apply f_alter_layout_total; [done..|].
    by eapply f_alter_layout_Ok_nonzero. }
  assert (Hlen : length (initial_indices m) = length (shape buffer))
    by by rewrite Hinit, length_fmap, length_seq.
  split; [done|]. split; [done|]. split.
  - destruct (Harity _ Hlen) as (out & Hout & Houtlen). congruence.
  - intros coords. split; [apply Harity|apply f_alter_layout_arity_mismatch].
Qed.

Lemma remapping_arity_witness :
  let m := MkIndexMap [Fresh 0]
    [FloorMod (FloorDiv (Add (IntImm 0) (Mul (IntImm 1) (VarRef (Fresh 0)))) (IntImm 8))
              (IntImm 4);
     FloorMod (Add (IntImm 0) (Mul (IntImm 1) (VarRef (Fresh 0)))) (IntImm 8)] in
  @SuggestIndexMap
    (scripted_host [IterSum [var_split "k_o" 1 4 8; var_split "k_i" 1 8 1] (IntImm 0)])
    (MkBuffer [IntImm 32] [])
    [Add (Mul (VarRef (Named "k_o")) (IntImm 8)) (VarRef (Named "k_i"))]
    [loop_over "k_o" 4; loop_over "k_i" 8] const_true [] = Ok (Some m) ∧
  length (initial_indices m) = 1 ∧ length (final_indices m) = 2.
Proof.
  intros m. split; [reflexivity|].
  destruct (@remapping_arity
    (scripted_host [IterSum [var_split "k_o" 1 4 8; var_split "k_i" 1 8 1] (IntImm 0)])
    (MkBuffer [IntImm 32] [])
    [Add (Mul (VarRef (Named "k_o")) (IntImm 8)) (VarRef (Named "k_i"))]
    [loop_over "k_o" 4; loop_over "k_i" 8] const_true [] m eq_refl)
    as (st & index & split_exprs & a' & order & _ & _ & _ & _ & _ & Hin & _).
  split; [exact Hin|reflexivity].
Defined.

(** C1, as stated, fails: for a buffer of rank 1 accessed through two split
    components the function takes one coordinate and returns two, and a
    tuple of two coordinates fails its assertion. *)
Lemma remapping_arity_counterexample :
  let host :=
    scripted_host [IterSum [var_split "k_o" 1 4 8; var_split "k_i" 1 8 1] (IntImm 0)] in
  let buffer := MkBuffer [IntImm 32] [] in
  let indices := [Add (Mul (VarRef (Named "k_o")) (IntImm 8)) (VarRef (Named "k_i"))] in
  let loops := [loop_over "k_o" 4; loop_over "k_i" 8] in
  let split_exprs := [MkSplitExpr (Named "k_o") 1 4; MkSplitExpr (Named "k_i") 1 8] in
  let m := MkIndexMap [Fresh 0]
    [FloorMod (FloorDiv (Add (IntImm 0) (Mul (IntImm 1) (VarRef (Fresh 0)))) (IntImm 8))
              (IntImm 4);
     FloorMod (Add (IntImm 0) (Mul (IntImm 1) (VarRef (Fresh 0)))) (IntImm 8)] in
  @SuggestIndexMap host buffer indices loops const_true [] = Ok (Some m) ∧
  @Collect host (Add (IntImm 0) (Mul (IntImm 1)
                   (Add (Mul (VarRef (Named "k_o")) (IntImm 8)) (VarRef (Named "k_i")))))
     (collect_loops loops 0 ∅ ∅).1 const_true false [] = Ok (split_exprs, []) ∧
  length (initial_indices m) ≠ length split_exprs ∧
  length (final_indices m) ≠ length (shape buffer) ∧
  @f_alter_layout host (f_flatten_index 1 [IntImm 1]) split_exprs [0; 1]
     (shape buffer) [] [Fresh 0; Fresh 1] = Throw ICheckFailed.
Proof. simpl. repeat split; (reflexivity || lia). Qed.

(** ** The host that uses the bound ranges *)

Lemma bound_below_sound env a v n :
  respects env a → bound_below a v n = true → (0 ≤ env v < n)%Z.
Proof.
  intros Hresp (( v' & r) & Hin & Hb)%existsb_exists.
  apply andb_prop in Hb as [Hv Hr]. apply bool_decide_eq_true in Hv as ->.
  eapply Forall_forall in Hresp; [|by apply list_elem_of_In]. simpl in Hresp.
  destruct r as [lo ext]. destruct lo as [|[| |]| | | | |]; try done.
  destruct ext as [|m| | | | |]; try done.
  apply bool_decide_eq_true in Hr. simpl in Hresp. lia.
Qed.

Lemma range_simplify_sound env a e :
  respects env a → eval env (range_simplify a e) = eval env e.
Proof.
  intros Hresp. induction e as [|z|x|x IHx y IHy|x IHx y IHy|x IHx y IHy|x IHx y IHy];
    simpl; try done.
  - rewrite <- IHx, <- IHy.
    destruct (range_simplify a x) as [|[|[]|]| | | | |]; simpl; try done.
  - rewrite <- IHx, <- IHy.
    destruct (range_simplify a x) as [|[|[]|]| | | | |]; simpl; try done.
    by destruct (eval env (range_simplify a y)).
  - by rewrite IHx, IHy.
  - rewrite <- IHx, <- IHy.
    destruct (range_simplify a x) as [| |v| | | |]; simpl; try done.
    destruct (range_simplify a y) as [|n| | | | |]; simpl; try done.
    destruct (bound_below a v n) eqn:Hb; simpl; [|done].
    pose proof (bound_below_sound env a v n Hresp Hb). by rewrite Z.mod_small.
Qed.

Lemma respects_bind env (a : list (Var * Range)) v d :
  respects env a → (0 ≤ env v < eval env d)%Z →
  respects env ((v, FromMinExtent (make_const 0) d) :: a).
Proof. intros Ha Hv. constructor; [simpl; lia|done]. Qed.

(** The digits of the remapping function, for extents that fit in an
    [int] and are not zero. *)
Lemma f_alter_layout_digits `{Host : ArithHost} (admits : Analyzer → Prop)
    buffer st split_exprs order a coords env :
  GetStrides buffer = Ok st →
  order ≡ₚ seq 0 (length split_exprs) →
  length coords = length (shape buffer) →
  Forall (λ e, fits_int (extent e) ∧ extent e ≠ 0%Z) split_exprs →
  admits a →
  (∀ a v d, admits a → (0 ≤ env v < eval env d)%Z →
            admits (Bind a v (FromMinExtent (make_const 0) d))) →
  (∀ a e, admits a → eval env (Simplify a e) = eval env e) →
  (∀ i v d, coords !! i = Some v → shape buffer !! i = Some d →
            (0 ≤ env v < eval env d)%Z) →
  ∃ flat out,
    f_flatten_index (length (shape buffer)) st (VarRef <$> coords) = Ok flat ∧
    f_alter_layout (f_flatten_index (length (shape buffer)) st) split_exprs order
      (shape buffer) a coords = Ok out ∧
    length out = length split_exprs ∧
    ∀ k j, order !! k = Some j →
      (eval env <$> out) !! k =
      digits_reversed (extent <$> split_exprs) (eval env flat) !! j.
Proof.
  intros Hst Horder Hlen Hint Hadmits Hbind Hsound Hrange.
  assert (Hsame : (λ e, to_int (extent e)) <$> split_exprs = extent <$> split_exprs).
  { apply list_fmap_ext. intros i e He.
    eapply Forall_forall in Hint as [Hfit _]; [|by eapply list_elem_of_lookup_2].
    by apply to_int_fits. }
  assert (Hnz : Forall (λ e, to_int (extent e) ≠ 0%Z) split_exprs).
  { eapply Forall_impl; [exact Hint|]. intros e [Hfit He]. by rewrite to_int_fits. }
  destruct (f_alter_layout_total buffer st split_exprs order a coords Hst Horder Hlen Hnz)
    as (out & Hout & _).
  destruct (f_alter_layout_values admits buffer st split_exprs order a coords env out
              Hst Horder Hout Hadmits Hbind Hsound Hrange)
    as (flat & Hflat & Houtlen & Hdigits).
  rewrite Hsame in Hdigits. by exists flat, out.
Qed.

(** C2 (amended): the values of the output tuple of the remapping function
    are obtained by decomposing the value of the flattened placeholder index
    digit by digit with the extents of the components taken in extraction
    order, from the last component to the first, reversing the remainders,
    and then taking, for output position k, the entry of the reversed
    sequence at the index that the order has at position k.  This holds for
    extents that fit in an [int] and are not zero, at every valuation of the
    placeholders within the shape, for a simplifier that preserves values in
    the analyzer states that admit the valuation, and for every order the
    sort returns.  With non-negative extents the entry is the flattened
    position divided by the product of the extents extracted after it,
    modulo its own extent. *)
Theorem remapping_digits `{Host : ArithHost} (admits : Analyzer → Prop)
    buffer st split_exprs order a coords env
    (Hst : GetStrides buffer = Ok st)
    (Horder : order ≡ₚ seq 0 (length split_exprs))
    (Hlen : length coords = length (shape buffer))
    (Hint : Forall (λ e, fits_int (extent e) ∧ extent e ≠ 0%Z) split_exprs)
    (Hadmits : admits a)
    (Hbind : ∀ a v d, admits a → (0 ≤ env v < eval env d)%Z →
             admits (Bind a v (FromMinExtent (make_const 0) d)))
    (Hsound : ∀ a e, admits a → eval env (Simplify a e) = eval env e)
    (Hrange : ∀ i v d, coords !! i = Some v → shape buffer !! i = Some d →
              (0 ≤ env v < eval env d)%Z) :
  ∃ flat out,
    f_flatten_index (length (shape buffer)) st (VarRef <$> coords) = Ok flat ∧
    f_alter_layout (f_flatten_index (length (shape buffer)) st) split_exprs order
      (shape buffer) a coords = Ok out ∧
    length out = length split_exprs ∧
    (∀ k j, order !! k = Some j →
       (eval env <$> out) !! k =
       digits_reversed (extent <$> split_exprs) (eval env flat) !! j) ∧
    (Forall (λ e, 0 ≤ extent e)%Z split_exprs →
     ∀ k j e, order !! k = Some j → split_exprs !! j = Some e →
       (eval env <$> out) !! k =
       Some ((eval env flat `div` weight (extent <$> split_exprs) j) `mod` extent e)%Z).
Proof.
  destruct (f_alter_layout_digits admits buffer st split_exprs order a coords env
              Hst Horder Hlen Hint Hadmits Hbind Hsound Hrange)
    as (flat & out & Hflat & Hout & Houtlen & Hdigits).
  exists flat, out. do 4 (split; [done|]).
  intros Hnonneg k j e Hk Hj. rewrite (Hdigits k j Hk).
  apply digits_reversed_lookup.
  - apply Forall_fmap. eapply Forall_impl; [exact Hnonneg|done].
  - by rewrite list_lookup_fmap, Hj.
Qed.

Lemma remapping_digits_witness :
  let buffer := MkBuffer [IntImm 8; IntImm 4] [] in
  let split_exprs := [MkSplitExpr (Named "j") 1 8; MkSplitExpr (Named "i") 1 4] in
  let env := λ v : Var,
    if decide (v = Fresh 0) then 5%Z else if decide (v = Fresh 1) then 3%Z else 0%Z in
  ∃ flat out,
    f_flatten_index 2 [Mul (IntImm 1) (IntImm 4); IntImm 1]
      (VarRef <$> [Fresh 0; Fresh 1]) = Ok flat ∧
    @f_alter_layout (range_host []) (f_flatten_index 2 [Mul (IntImm 1) (IntImm 4); IntImm 1])
      split_exprs [1; 0] (shape buffer) [] [Fresh 0; Fresh 1] = Ok out ∧
    length out = 2 ∧
    (∀ k j, [1; 0] !! k = Some j →
       (eval env <$> out) !! k =
       digits_reversed (extent <$> split_exprs) (eval env flat) !! j) ∧
    (Forall (λ e, 0 ≤ extent e)%Z split_exprs →
     ∀ k j e, [1; 0] !! k = Some j → split_exprs !! j = Some e →
       (eval env <$> out) !! k =
       Some ((eval env flat `div` weight (extent <$> split_exprs) j) `mod` extent e)%Z).
Proof.
  intros buffer split_exprs env.
  apply (@remapping_digits (range_host []) (respects env) buffer
           [Mul (IntImm 1) (IntImm 4); IntImm 1] split_exprs [1; 0] []
           [Fresh 0; Fresh 1] env eq_refl).
  - apply Permutation_swap.
  - reflexivity.
  - repeat constructor; (cbv; congruence).
  - constructor.
  - intros a v d. apply respects_bind.
  - intros a e. apply range_simplify_sound.
  - intros i v d Hv Hd.
    destruct i as [|[|i]]; [| |discriminate Hv];
      injection Hv as <-; injection Hd as <-; cbv; split; congruence.
Defined.

(** C2, as stated, fails: on a transposed access the extents in canonical
    order are [4; 8] while the function extracts with [8; 4] and then
    permutes; at the flattened position 4 it returns (0, 1), not (0, 4). *)
Lemma remapping_digits_counterexample :
  let host :=
    scripted_host [IterSum [var_split "j" 1 8 4; var_split "i" 1 4 1] (IntImm 0)] in
  let buffer := MkBuffer [IntImm 8; IntImm 4] [] in
  let indices := [VarRef (Named "j"); VarRef (Named "i")] in
  let loops := [loop_over "i" 4; loop_over "j" 8] in
  let split_exprs := [MkSplitExpr (Named "j") 1 8; MkSplitExpr (Named "i") 1 4] in
  let order := [1; 0] in
  let env := λ v : Var, if decide (v = Fresh 0) then 1%Z else 0%Z in
  ∃ m st index flat,
    @SuggestIndexMap host buffer indices loops const_true [] = Ok (Some m) ∧
    GetStrides buffer = Ok st ∧
    f_flatten_index 2 st indices = Ok index ∧
    @Collect host index (collect_loops loops 0 ∅ ∅).1 const_true false []
      = Ok (split_exprs, []) ∧
    std_sort (split_less split_exprs (collect_loops loops 0 ∅ ∅).2) (seq 0 2) = Ok order ∧
    f_flatten_index 2 st (VarRef <$> initial_indices m) = Ok flat ∧
    eval env flat = 4%Z ∧
    eval env <$> final_indices m = [0%Z; 1%Z] ∧
    extents_in_order split_exprs order = [4%Z; 8%Z] ∧
    digits_reversed (extents_in_order split_exprs order) (eval env flat) = [0%Z; 4%Z].
Proof.
  simpl. eexists _, _, _, _. repeat split; reflexivity.
Qed.

(** * Further properties of the code *)

(** ** GetStrides and the flattened index *)

(** X1: GetStrides fails only on explicit strides whose number differs from
    the rank, and then with a failed assertion; otherwise it returns exactly
    one stride per dimension. *)
Theorem GetStrides_outcome (buffer : Buffer) :
  (GetStrides buffer = Throw ICheckFailed ∧
   strides buffer ≠ [] ∧ length (strides buffer) ≠ length (shape buffer)) ∨
  (∃ st, GetStrides buffer = Ok st ∧ length st = length (shape buffer) ∧
         (strides buffer = [] ∨ length (strides buffer) = length (shape buffer))).
Proof.
  destruct (decide (strides buffer = [])) as [Hnil|Hne].
  - right. unfold GetStrides. rewrite bool_decide_eq_true_2 by done. simpl.
    case_bool_decide as Hz.
    + exists []. by rewrite Hz; auto.
    + destruct (GetStrides_loop_spec (shape buffer) (length (shape buffer))
                  (replicate (length (shape buffer)) NullExpr) (make_const 1))
        as (out & Hout & Hlen & _); [lia|by rewrite length_replicate|].
      exists out. auto.
  - destruct (decide (length (strides buffer) = length (shape buffer))) as [Hlen|Hlen].
    + right. exists (strides buffer). unfold GetStrides.
      rewrite (bool_decide_eq_false_2 (strides buffer = [])) by done.
      rewrite (bool_decide_eq_true_2 (length _ = length _)) by done. auto.
    + left. unfold GetStrides.
      rewrite (bool_decide_eq_false_2 (strides buffer = [])) by done.
      rewrite (bool_decide_eq_false_2 (length _ = length _)) by done. auto.
Qed.

Lemma weight_step vals i d :
  vals !! S i = Some d → weight vals i = (d * weight vals (S i))%Z.
Proof.
  intros Hd. unfold weight. by rewrite (drop_S _ _ _ Hd).
Qed.

Lemma weight_end vals i : S i = length vals → weight vals i = 1%Z.
Proof. intros Hi. unfold weight. by rewrite drop_ge by lia. Qed.

Lemma row_major_values env sh out :
  length out = length sh →
  (∀ i, S i = length sh → out !! i = Some (make_const 1)) →
  (∀ i s d, out !! S i = Some s → sh !! S i = Some d → out !! i = Some (Mul s d)) →
  ∀ k i, i + k = length sh → 0 < k →
    eval env <$> out !! i = Some (weight (eval env <$> sh) i).
Proof.
  intros Hlen Htop Hrec. induction k as [|k IH]; intros i Hi Hk; [lia|].
  destruct (decide (k = 0)) as [->|Hk0].
  - rewrite (Htop i) by lia. simpl. by rewrite weight_end by (rewrite length_fmap; lia).
  - destruct (lookup_lt_is_Some_2 out (S i)) as [s Hs]; [lia|].
    destruct (lookup_lt_is_Some_2 sh (S i)) as [d Hd]; [lia|].
    rewrite (Hrec i s d Hs Hd). simpl.
    assert (Hnext : eval env s = weight (eval env <$> sh) (S i)).
    { specialize (IH (S i)). rewrite Hs in IH. simpl in IH.
      apply (inj Some), IH; lia. }
    rewrite (weight_step _ _ (eval env d)) by by rewrite list_lookup_fmap, Hd.
    rewrite Hnext. f_equal. lia.
Qed.

Lemma derived_stride_values (buffer : Buffer) (env : Var → Z)
    (Hderive : strides buffer = []) :
  ∃ st, GetStrides buffer = Ok st ∧
    eval env <$> st =
    (λ i, weight (eval env <$> shape buffer) i) <$> seq 0 (length (shape buffer)).
Proof.
  unfold GetStrides. rewrite bool_decide_eq_true_2 by done. simpl.
  case_bool_decide as Hz.
  - exists []. by rewrite Hz.
  - destruct (GetStrides_loop_spec (shape buffer) (length (shape buffer))
                (replicate (length (shape buffer)) NullExpr) (make_const 1))
      as (out & Hout & Hlen & _ & Htop & Hrec); [lia|by rewrite length_replicate|].
    exists out. split; [done|].
    apply list_eq. intros i. rewrite !list_lookup_fmap.
    destruct (decide (i < length (shape buffer))) as [Hi|Hi].
    + rewrite lookup_seq_lt by done. simpl.
      eapply (row_major_values env (shape buffer) out Hlen Htop)
        with (k := length (shape buffer) - i); [|lia..].
      intros i' s d Hs Hd. apply (Hrec i' s d); [|done..].
      apply lookup_lt_Some in Hs. lia.
    + rewrite lookup_ge_None_2 by lia.
      by rewrite lookup_ge_None_2 by (rewrite length_seq; lia).
Qed.

(** X2: for a buffer without explicit strides, the value of the i-th derived
    stride is the product of the extents of the dimensions after i. *)
Theorem GetStrides_values (buffer : Buffer) (env : Var → Z)
    (Hderive : strides buffer = []) :
  ∃ st, GetStrides buffer = Ok st ∧
    eval env <$> st =
    (λ i, weight (eval env <$> shape buffer) i) <$> seq 0 (length (shape buffer)).
Proof. by apply derived_stride_values. Qed.

Lemma GetStrides_values_witness :
  ∃ st, GetStrides (MkBuffer [IntImm 2; IntImm 3; IntImm 5; IntImm 7] []) = Ok st ∧
    eval (λ _, 0%Z) <$> st = [105%Z; 35%Z; 7%Z; 1%Z].
Proof.
  apply (GetStrides_values (MkBuffer [IntImm 2; IntImm 3; IntImm 5; IntImm 7] [])
           (λ _, 0%Z) eq_refl).
Defined.

Lemma f_flatten_loop_value env st indices :
  ∀ remaining i flat out,
    f_flatten_loop st indices i remaining flat = Ok out →
    eval env out =
    (eval env flat +
     dot_product (take remaining (drop i (eval env <$> st)))
                 (take remaining (drop i (eval env <$> indices))))%Z.
Proof.
  induction remaining as [|r IH]; intros i flat out; simpl.
  - intros [= <-]. lia.
  - unfold array_get. destruct (st !! i) as [stride|] eqn:Hs; simpl; [|done].
    destruct (indices !! i) as [x|] eqn:Hx; simpl; [|done].
    intros Hout. rewrite (IH _ _ _ Hout). simpl.
    rewrite (drop_S (eval env <$> st) (eval env stride) i)
      by by rewrite list_lookup_fmap, Hs.
    rewrite (drop_S (eval env <$> indices) (eval env x) i)
      by by rewrite list_lookup_fmap, Hx.
    simpl. lia.
Qed.

Lemma f_flatten_loop_short_strides st indices :
  ∀ remaining i flat,
    0 < remaining → length st < i + remaining →
    f_flatten_loop st indices i remaining flat = Throw ICheckFailed.
Proof.
  induction remaining as [|r IH]; intros i flat Hpos Hshort; [lia|]. simpl.
  unfold array_get. destruct (st !! i) as [stride|] eqn:Hs; simpl; [|done].
  destruct (indices !! i) as [x|] eqn:Hx; simpl; [|done].
  apply lookup_lt_Some in Hs. apply IH; lia.
Qed.

(** X3: the flattened index is built exactly when the captured strides and
    the supplied indices both have at least ndim entries, and its value is
    then the sum of the products of the first ndim strides and indices;
    otherwise the bounds check of an array read fails. *)
Theorem f_flatten_index_outcome (ndim : nat) (st indices : list PrimExpr) :
  (ndim ≤ length st ∧ ndim ≤ length indices ∧
   ∃ out, f_flatten_index ndim st indices = Ok out ∧
     ∀ env, eval env out =
       dot_product (take ndim (eval env <$> st)) (take ndim (eval env <$> indices))) ∨
  ((length st < ndim ∨ length indices < ndim) ∧
   f_flatten_index ndim st indices = Throw ICheckFailed).
Proof.
  destruct (decide (ndim ≤ length st ∧ ndim ≤ length indices)) as [[Hst Hidx]|Hshort].
  - left. split; [done|]. split; [done|].
    destruct (f_flatten_loop_total st indices ndim 0 (make_const 0)) as [out Hout];
      [lia..|].
    exists out. split; [done|]. intros env.
    rewrite (f_flatten_loop_value env _ _ _ _ _ _ Hout). simpl. by rewrite !drop_0.
  - right. split; [lia|]. unfold f_flatten_index.
    destruct (decide (ndim ≤ length st)).
    + apply f_flatten_loop_short; lia.
    + apply f_flatten_loop_short_strides; lia.
Qed.

Lemma strides_arity_mismatch_aborts_witness :
  @SuggestIndexMap (scripted_host [IterSum [var_split "i" 1 4 1] (IntImm 0)])
    (MkBuffer [IntImm 4] [IntImm 4; IntImm 1]) [VarRef (Named "i")]
    [loop_over "i" 4] const_true [] = Throw ICheckFailed.
Proof.
  apply (@strides_arity_mismatch_aborts (scripted_host _)
           (MkBuffer [IntImm 4] [IntImm 4; IntImm 1])); simpl; [done|lia].
Defined.

Lemma short_indices_abort_witness :
  @SuggestIndexMap (scripted_host [IterSum [var_split "i" 1 4 1] (IntImm 0)])
    (MkBuffer [IntImm 4; IntImm 8] []) [VarRef (Named "i")]
    [loop_over "i" 4] const_true [] = Throw ICheckFailed.
Proof.
  apply (@short_indices_abort (scripted_host _) (MkBuffer [IntImm 4; IntImm 8] [])).
  simpl. lia.
Defined.

Lemma surplus_indices_ignored_witness :
  let host := scripted_host [IterSum [var_split "i" 1 4 1] (IntImm 0)] in
  @SuggestIndexMap host (MkBuffer [IntImm 4] [])
    ([VarRef (Named "i")] ++ [VarRef (Named "j"); IntImm 7])
    [loop_over "i" 4] const_true [] =
  @SuggestIndexMap host (MkBuffer [IntImm 4] []) [VarRef (Named "i")]
    [loop_over "i" 4] const_true [].
Proof.
  intros host.
  apply (@surplus_indices_ignored host (MkBuffer [IntImm 4] []) [VarRef (Named "i")]).
  reflexivity.
Defined.

(** ** The tables of step 1 *)

Lemma collect_loops_input_iters loops :
  ∀ i iters var2id v,
    (collect_loops loops i iters var2id).1 !! v =
    match declared_range loops v with
    | Some r => Some r
    | None => iters !! v
    end.
Proof.
  induction loops as [|loop rest IH]; intros i iters var2id v; simpl; [done|].
  rewrite IH. destruct (declared_range rest v); [done|].
  rewrite lookup_insert. by case_decide.
Qed.

Lemma declared_range_is_Some loops v :
  is_Some (declared_range loops v) ↔ is_Some (nesting_position loops v).
Proof.
  induction loops as [|loop rest IH]; simpl; [done|].
  destruct (declared_range rest v) as [r|] eqn:Hr.
  - destruct IH as [IH _]. destruct IH as [p ->]; [by eexists|].
    case_decide; simpl; split; intros _; by eexists.
  - destruct (nesting_position rest v) as [p|] eqn:Hp.
    + destruct IH as [_ IH]. destruct IH as [? [=]]. by eexists.
    + case_decide; simpl; [split; intros _; by eexists|done].
Qed.

Lemma nesting_position_is_Some loops v :
  is_Some (nesting_position loops v) ↔ v ∈ loop_var <$> loops.
Proof.
  induction loops as [|loop rest IH]; simpl.
  - split; [by intros [? [=]]|by intros ?%elem_of_nil].
  - rewrite elem_of_cons. case_decide as Heq.
    + split; [by left|by eexists].
    + rewrite <- IH. destruct (nesting_position rest v); simpl.
      * split; [right|]; by eexists.
      * split; [by intros [? [=]]|]. intros [?|[? [=]]]. congruence.
Qed.

(** X7: step 1 records for a variable the position of the first loop that
    declares it (emplace keeps the entry that is there) and the domain of
    the last one (Set overwrites); both tables have exactly the loop
    variables as keys. *)
Theorem loop_tables (loops : list For) (v : Var) :
  let tables := collect_loops loops 0 ∅ ∅ in
  tables.2 !! v = nesting_position loops v ∧
  tables.1 !! v = declared_range loops v ∧
  (is_Some (tables.1 !! v) ↔ v ∈ loop_var <$> loops) ∧
  (is_Some (tables.2 !! v) ↔ v ∈ loop_var <$> loops).
Proof.
  simpl.
  assert (H1 : (collect_loops loops 0 ∅ ∅).1 !! v = declared_range loops v).
  { rewrite collect_loops_input_iters, lookup_empty. by destruct (declared_range loops v). }
  rewrite H1, var2id_nesting_position.
  split; [done|]. split; [done|].
  rewrite declared_range_is_Some. split; apply nesting_position_is_Some.
Qed.

(** ** The extractor *)

Lemma component_of_var_node e :
  is_var_node e = true → has_dynamic_factor e = false → is_Some (component_of e).
Proof.
  destruct e as [[src mext|s mext] lf ext sc]; [|done].
  destruct src; try done. simpl. intros _.
  destruct lf; simpl; try done. destruct ext; simpl; done.
Qed.

Lemma component_of_is_var_node e c : component_of e = Some c → is_var_node e = true.
Proof.
  destruct e as [[src mext|s mext] lf ext sc]; [|done].
  by destruct src.
Qed.

Lemma omap_component_of_length nodes :
  (∀ e, e ∈ nodes → is_var_node e = true → is_Some (component_of e)) →
  length (omap component_of nodes) = length (filter (λ e, is_var_node e = true) nodes).
Proof.
  induction nodes as [|e nodes IH]; intros Hall; [done|].
  simpl. rewrite filter_cons.
  destruct (component_of e) as [c|] eqn:Hc.
  - rewrite decide_True by by eapply component_of_is_var_node.
    simpl. f_equal. apply IH. intros e' He'. apply Hall. by right.
  - destruct (decide (is_var_node e = true)) as [Hvar|Hvar].
    + destruct (Hall e) as [c Hc']; [by left|done|congruence].
    + apply IH. intros e' He'. apply Hall. by right.
Qed.

(** X8: the extractor returns all or nothing: given one decomposition, the
    list it returns is either empty or holds the component of every node
    that wraps a loop variable, in walk order, none dropped; the analyzer
    is handed on as the detector left it. *)
Theorem Collect_all_or_nothing `{Host : ArithHost}
    index iters pred rb a s a' l a''
    (Hdet : DetectIterMap [Simplify a index] iters pred rb a = ([s], a'))
    (Hcollect : Collect index iters pred rb a = Ok (l, a'')) :
  a'' = a' ∧
  (l = [] ∨
   (l = omap component_of (sum_nodes s) ∧
    length l = length (filter (λ e, is_var_node e = true) (sum_nodes s)) ∧
    Forall (λ e, recognised e = true ∧
                 (is_var_node e = true → has_dynamic_factor e = false))
           (sum_nodes s))).
Proof.
  rewrite (Collect_one _ _ _ _ _ _ _ Hdet) in Hcollect. unfold walk in Hcollect.
  destruct (forallb recognised (sum_nodes s)) eqn:Hrec; simpl in Hcollect; [|done].
  destruct (existsb _ (sum_nodes s)) eqn:Hdyn; simpl in Hcollect;
    injection Hcollect as <- <-; (split; [done|]); [by left|right].
  assert (Hall : Forall (λ e, recognised e = true ∧
            (is_var_node e = true → has_dynamic_factor e = false)) (sum_nodes s)).
  { apply Forall_forall. intros e He. split.
    - rewrite forallb_forall in Hrec. by apply Hrec, list_elem_of_In.
    - intros Hvar. destruct (has_dynamic_factor e) eqn:Hd; [|done].
      assert (existsb (λ e, is_var_node e && has_dynamic_factor e) (sum_nodes s) = true);
        [|congruence].
      apply existsb_exists. exists e. split; [by apply list_elem_of_In|].
      by rewrite Hvar, Hd. }
  split; [done|]. split; [|done].
  apply omap_component_of_length. intros e He Hvar.
  eapply Forall_forall in Hall as [_ Hconst]; [|done].
  by apply component_of_var_node; [|apply Hconst].
Qed.

Lemma Collect_all_or_nothing_witness :
  let host := scripted_host
    [IterSum [var_split "i" 8 4 8;
              IterSplit (MarkSum (IterSum [var_split "j" 1 2 4; var_split "k" 1 4 1]
                                          (IntImm 0)) (IntImm 8))
                        (IntImm 1) (IntImm 8) (IntImm 1)] (IntImm 0)] in
  let l := [MkSplitExpr (Named "i") 8 4; MkSplitExpr (Named "j") 1 2;
            MkSplitExpr (Named "k") 1 4] in
  @Collect host (IntImm 0) ∅ const_true false [] = Ok (l, []) ∧
  (l = [] ∨ length l = 3).
Proof.
  intros host l. split; [reflexivity|].
  destruct (@Collect_all_or_nothing host (IntImm 0) ∅ const_true false [] _ [] l []
              eq_refl eq_refl) as [_ [Hnil|(_ & Hlen & _)]].
  - by left.
  - right. exact Hlen.
Defined.

(** X9: given that no node of the answer has the null reference as its
    source, the extractor throws exactly when the detector answers with two
    or more decompositions, or with one that holds a node of neither
    documented shape; what it throws is always a failed assertion. *)
Theorem Collect_throws_iff `{Host : ArithHost} index iters pred rb a sums a' f
    (Hdet : DetectIterMap [Simplify a index] iters pred rb a = (sums, a'))
    (Hsources : ∀ s e, s ∈ sums → e ∈ sum_nodes s → null_source e = false) :
  Collect index iters pred rb a = Throw f ↔
  f = ICheckFailed ∧
  (2 ≤ length sums ∨ ∃ s e, sums = [s] ∧ e ∈ sum_nodes s ∧ recognised e = false).
Proof.
  destruct sums as [|s [|s' rest]].
  - rewrite (Collect_none _ _ _ _ _ _ Hdet). split; [done|].
    intros (_ & [Hlen|(s & e & [=] & _)]). simpl in Hlen. lia.
  - rewrite (Collect_one _ _ _ _ _ _ _ Hdet). unfold walk.
    destruct (forallb recognised (sum_nodes s)) eqn:Hrec; simpl.
    + split; [done|]. intros (_ & [Hlen|(s0 & e & [= <-] & He & Hne)]).
      * simpl in Hlen. lia.
      * rewrite forallb_forall in Hrec. apply list_elem_of_In, Hrec in He. congruence.
    + split.
      * intros [= <-]. split; [done|]. right.
        assert (Hex : existsb (λ e, negb (recognised e)) (sum_nodes s) = true).
        { destruct (existsb _ _) eqn:Hex; [done|].
          assert (forallb recognised (sum_nodes s) = true); [|congruence].
          apply forallb_forall. intros e He.
          destruct (recognised e) eqn:Hr; [done|].
          assert (existsb (λ e, negb (recognised e)) (sum_nodes s) = true); [|congruence].
          apply existsb_exists. exists e. by rewrite Hr. }
        apply existsb_exists in Hex as (e & He & Hr).
        exists s, e. split; [done|]. split; [by apply list_elem_of_In|].
        by destruct (recognised e).
      * by intros [-> _].
  - rewrite (Collect_many _ _ _ _ _ _ _ Hdet) by (simpl; done || lia).
    split; [intros [= <-]|by intros [-> _]].
    split; [done|]. left. simpl. lia.
Qed.

Lemma Collect_throws_iff_witness :
  let sums := [IterSum [var_split "i" 1 4 1] (IntImm 0);
               IterSum [var_split "j" 1 8 1] (IntImm 0)] in
  @Collect (scripted_host sums) (IntImm 0) ∅ const_true false [] = Throw ICheckFailed ∧
  (2 ≤ length sums ∨
   ∃ s e, sums = [s] ∧ e ∈ sum_nodes s ∧ recognised e = false).
Proof.
  intros sums. split; [reflexivity|].
  apply (@Collect_throws_iff (scripted_host sums) (IntImm 0) ∅ const_true false []
           sums [] ICheckFailed eq_refl).
  - intros s e Hs He.
    assert (Hall : Forall (λ s, Forall (λ e, null_source e = false) (sum_nodes s)) sums)
      by (repeat constructor).
    eapply Forall_forall in Hall; [|exact Hs].
    eapply Forall_forall in Hall; [exact Hall|exact He].
  - reflexivity.
Defined.

(** X10: nesting leaves no trace: a node that wraps a sum is visited exactly
    as the terms of that sum would be in its place; its own lower factor,
    extent and scale are never read. *)
Theorem nested_sum_is_transparent before inner inner_base mext lf ext sc after base c :
  VisitSum (IterSum (before ++ IterSplit (MarkSum (IterSum inner inner_base) mext)
                                         lf ext sc :: after) base) c =
  VisitSum (IterSum (before ++ inner ++ after) base) c.
Proof.
  rewrite !VisitSum_walk. simpl.
  rewrite !flat_map_app. simpl. rewrite !walk_app.
  destruct (walk (flat_map split_nodes before) c) as [c'|f]; simpl; [|done].
  rewrite walk_sum_node. by rewrite walk_app.
Qed.

(** ** The sort of step 4 *)

Lemma split_less_in_range split_exprs var2id a b :
  a < length split_exprs → b < length split_exprs →
  (∃ ka kb, sort_key split_exprs var2id a = Some ka ∧
            sort_key split_exprs var2id b = Some kb ∧
            split_less split_exprs var2id a b = Ok (key_less ka kb)) ∨
  ((sort_key split_exprs var2id a = None ∨ sort_key split_exprs var2id b = None) ∧
   split_less split_exprs var2id a b = Throw StdOutOfRange).
Proof.
  intros Ha Hb.
  destruct (lookup_lt_is_Some_2 split_exprs a Ha) as [ea Hea].
  destruct (lookup_lt_is_Some_2 split_exprs b Hb) as [eb Heb].
  unfold split_less, sort_key, vector_get, map_at. rewrite Hea, Heb. simpl.
  destruct (var2id !! source ea) as [ia|]; simpl; [|right; auto].
  destruct (var2id !! source eb) as [ib|]; simpl; [|right; auto].
  left. exists (ia, lower_factor ea), (ib, lower_factor eb).
  split; [done|]. split; [done|]. unfold key_less. simpl. by destruct (negb _).
Qed.

Lemma sort_insert_Throw split_exprs var2id x sorted f :
  Forall (λ k, k < length split_exprs) (x :: sorted) →
  sort_insert (split_less split_exprs var2id) x sorted = Throw f →
  f = StdOutOfRange.
Proof.
  intros [Hx Hsorted]%Forall_cons.
  induction Hsorted as [|y rest Hy _ IH]; simpl; [done|].
  destruct (split_less_in_range split_exprs var2id y x Hy Hx)
    as [(ky & kx & _ & _ & ->)|[_ ->]]; simpl; [|by intros [= <-]].
  destruct (key_less ky kx); [|done].
  destruct (sort_insert _ x rest) as [tail|f'] eqn:Htail; simpl; [done|].
  intros [= <-]. by apply IH.
Qed.

Lemma std_sort_Throw split_exprs var2id l f :
  Forall (λ k, k < length split_exprs) l →
  std_sort (split_less split_exprs var2id) l = Throw f →
  f = StdOutOfRange.
Proof.
  induction 1 as [|x rest Hx Hrest IH]; simpl; [done|].
  destruct (std_sort _ rest) as [sorted|f'] eqn:Hs; simpl.
  - apply std_sort_spec in Hs as [Hperm _].
    apply sort_insert_Throw. constructor; [done|]. by rewrite Hperm.
  - intros [= <-]. by apply IH.
Qed.

Lemma sort_insert_missing_key split_exprs var2id x y sorted :
  x < length split_exprs → y < length split_exprs →
  sort_key split_exprs var2id x = None ∨ sort_key split_exprs var2id y = None →
  sort_insert (split_less split_exprs var2id) x (y :: sorted) = Throw StdOutOfRange.
Proof.
  intros Hx Hy Hnone. simpl.
  destruct (split_less_in_range split_exprs var2id y x Hy Hx)
    as [(ky & kx & Hky & Hkx & _)|[_ ->]]; [|done].
  destruct Hnone; congruence.
Qed.

Lemma std_sort_missing_key split_exprs var2id l k :
  Forall (λ k, k < length split_exprs) l →
  2 ≤ length l → k ∈ l → sort_key split_exprs var2id k = None →
  std_sort (split_less split_exprs var2id) l = Throw StdOutOfRange.
Proof.
  intros Hrange. revert k.
  induction Hrange as [|x rest Hx Hrest IH]; intros k Hlen Hk Hnone; simpl in *; [lia|].
  destruct (std_sort _ rest) as [sorted|f] eqn:Hs; simpl.
  2: { f_equal. by eapply std_sort_Throw. }
  pose proof (std_sort_spec _ _ _ _ Hs) as [Hperm _].
  destruct sorted as [|y sorted'].
  { apply Permutation_nil_l in Hperm. subst. simpl in Hlen. lia. }
  assert (Hy : y < length split_exprs).
  { eapply Forall_forall in Hrest; [done|]. rewrite <- Hperm. by left. }
  apply sort_insert_missing_key; [done..|].
  destruct (sort_key split_exprs var2id x) eqn:Hkx; [|by left]. right.
  apply elem_of_cons in Hk as [->|Hk]; [congruence|].
  destruct (decide (2 ≤ length rest)) as [Hlen2|Hlen1].
  - by pose proof (IH k Hlen2 Hk Hnone).
  - destruct rest as [|k' [|? ?]]; simpl in *; [lia| |lia].
    apply list_elem_of_singleton in Hk as ->.
    apply Permutation_singleton_r in Hperm. by simplify_eq.
Qed.

Lemma sort_key_None loops split_exprs k e :
  split_exprs !! k = Some e →
  nesting_position loops (source e) = None →
  sort_key split_exprs (collect_loops loops 0 ∅ ∅).2 k = None.
Proof.
  intros He Hpos. unfold sort_key. rewrite He. simpl.
  by rewrite var2id_nesting_position, Hpos.
Qed.

(** X11: when the extractor returns two or more components and the source
    of one of them is not a loop variable, the comparator's lookup of its
    position throws std::out_of_range, and so does SuggestIndexMap. *)
Theorem unknown_source_throws_out_of_range `{Host : ArithHost}
    buffer indices loops pred a st index split_exprs a' e
    (Hst : GetStrides buffer = Ok st)
    (Hidx : f_flatten_index (length (shape buffer)) st indices = Ok index)
    (Hcollect : Collect index (collect_loops loops 0 ∅ ∅).1 pred false a
                = Ok (split_exprs, a'))
    (Hmany : 2 ≤ length split_exprs)
    (He : e ∈ split_exprs)
    (Hunknown : source e ∉ loop_var <$> loops) :
  std_sort (split_less split_exprs (collect_loops loops 0 ∅ ∅).2)
           (seq 0 (length split_exprs)) = Throw StdOutOfRange ∧
  SuggestIndexMap buffer indices loops pred a = Throw StdOutOfRange.
Proof.
  assert (Hsort : std_sort (split_less split_exprs (collect_loops loops 0 ∅ ∅).2)
                    (seq 0 (length split_exprs)) = Throw StdOutOfRange).
  { apply list_elem_of_lookup in He as [k Hk].
    apply (std_sort_missing_key _ _ _ k).
    - apply Forall_forall. intros i Hi%elem_of_seq. lia.
    - by rewrite length_seq.
    - apply elem_of_seq. apply lookup_lt_Some in Hk. lia.
    - eapply sort_key_None; [done|].
      destruct (nesting_position loops (source e)) eqn:Hpos; [|done].
      exfalso. apply Hunknown, nesting_position_is_Some. by eexists. }
  split; [done|].
  rewrite (SuggestIndexMap_steps _ _ _ _ _ _ _ Hst Hidx), Hcollect. simpl.
  rewrite bool_decide_eq_false_2 by (intros ->; simpl in Hmany; lia).
  by rewrite Hsort.
Qed.

Lemma unknown_source_throws_out_of_range_witness :
  @SuggestIndexMap
    (scripted_host [IterSum [var_split "i" 1 4 8; var_split "z" 1 8 1] (IntImm 0)])
    (MkBuffer [IntImm 32] []) [VarRef (Named "i")] [loop_over "i" 4] const_true [] =
  Throw StdOutOfRange.
Proof.
  apply (@unknown_source_throws_out_of_range
    (scripted_host [IterSum [var_split "i" 1 4 8; var_split "z" 1 8 1] (IntImm 0)])
    (MkBuffer [IntImm 32] []) [VarRef (Named "i")] [loop_over "i" 4] const_true []
    [IntImm 1] (Add (IntImm 0) (Mul (IntImm 1) (VarRef (Named "i"))))
    [MkSplitExpr (Named "i") 1 4; MkSplitExpr (Named "z") 1 8] []
    (MkSplitExpr (Named "z") 1 8) eq_refl eq_refl eq_refl).
  - simpl. lia.
  - repeat constructor.
  - simpl. by intros [=]%list_elem_of_singleton.
Defined.

(** X12: a single component is never looked up: when the extractor returns
    exactly one component, whose extent is not zero as an [int], a
    suggestion is made whatever the loops are, also when the source of the
    component is not among them. *)
Theorem single_component_needs_no_position `{Host : ArithHost}
    buffer indices loops pred a st index e a'
    (Hst : GetStrides buffer = Ok st)
    (Hidx : f_flatten_index (length (shape buffer)) st indices = Ok index)
    (Hcollect : Collect index (collect_loops loops 0 ∅ ∅).1 pred false a = Ok ([e], a'))
    (Hextent : to_int (extent e) ≠ 0%Z) :
  ∃ m, SuggestIndexMap buffer indices loops pred a = Ok (Some m) ∧
       length (final_indices m) = 1.
Proof.
  rewrite (SuggestIndexMap_steps _ _ _ _ _ _ _ Hst Hidx), Hcollect. simpl.
  destruct (f_alter_layout_total buffer st [e] [0] a'
              (Fresh <$> seq 0 (length (shape buffer))) Hst)
    as (out & Hout & Hlen);
    [done|by rewrite length_fmap, length_seq|by constructor|].
  unfold FromFunc. rewrite Hout. simpl. by eexists.
Qed.

Lemma single_component_needs_no_position_witness :
  ∃ m, @SuggestIndexMap (scripted_host [IterSum [var_split "z" 1 4 1] (IntImm 0)])
         (MkBuffer [IntImm 4] []) [VarRef (Named "i")] [] const_true [] = Ok (Some m) ∧
       length (final_indices m) = 1.
Proof.
  apply (@single_component_needs_no_position
    (scripted_host [IterSum [var_split "z" 1 4 1] (IntImm 0)])
    (MkBuffer [IntImm 4] []) [VarRef (Named "i")] [] const_true []
    [IntImm 1] (Add (IntImm 0) (Mul (IntImm 1) (VarRef (Named "i"))))
    (MkSplitExpr (Named "z") 1 4) [] eq_refl eq_refl eq_refl).
  cbv. congruence.
Defined.

Lemma GetStrides_Throw buffer f : GetStrides buffer = Throw f → f = ICheckFailed.
Proof.
  unfold GetStrides. destruct (negb _).
  - unfold ICHECK. case_bool_decide; simpl; [done|]. by intros [= <-].
  - case_bool_decide; [done|].
    destruct (GetStrides_loop_spec (shape buffer) (length (shape buffer))
                (replicate (length (shape buffer)) NullExpr) (make_const 1))
      as (out & -> & _); [lia|by rewrite length_replicate|done].
Qed.

Lemma f_flatten_loop_Throw st indices f :
  ∀ remaining i flat,
    f_flatten_loop st indices i remaining flat = Throw f → f = ICheckFailed.
Proof.
  induction remaining as [|r IH]; intros i flat; simpl; [done|].
  unfold array_get. destruct (st !! i); simpl; [|by intros [= <-]].
  destruct (indices !! i); simpl; [|by intros [= <-]]. apply IH.
Qed.

Lemma Collect_Throw `{Host : ArithHost} index iters pred rb a f :
  Collect index iters pred rb a = Throw f → f = ICheckFailed.
Proof.
  destruct (DetectIterMap [Simplify a index] iters pred rb a) as [sums a'] eqn:Hdet.
  destruct sums as [|s [|s' rest]].
  - by rewrite (Collect_none _ _ _ _ _ _ Hdet).
  - rewrite (Collect_one _ _ _ _ _ _ _ Hdet). unfold walk.
    destruct (forallb recognised (sum_nodes s)); simpl; [done|]. by intros [= <-].
  - rewrite (Collect_many _ _ _ _ _ _ _ Hdet) by (simpl; done || lia). by intros [= <-].
Qed.

(** X13: SuggestIndexMap throws nothing but a failed assertion or
    std::out_of_range, so no unchecked vector read is ever out of bounds;
    and it throws std::out_of_range only after the extractor returned two or
    more components with a source that is not a loop variable. *)
Theorem SuggestIndexMap_failures `{Host : ArithHost} buffer indices loops pred a f
    (Hthrow : SuggestIndexMap buffer indices loops pred a = Throw f) :
  f = ICheckFailed ∨
  (f = StdOutOfRange ∧
   ∃ st index split_exprs a' e,
     GetStrides buffer = Ok st ∧
     f_flatten_index (length (shape buffer)) st indices = Ok index ∧
     Collect index (collect_loops loops 0 ∅ ∅).1 pred false a = Ok (split_exprs, a') ∧
     2 ≤ length split_exprs ∧ e ∈ split_exprs ∧ source e ∉ loop_var <$> loops).
Proof.
  destruct (GetStrides buffer) as [st|f'] eqn:Hst.
  2: { left. unfold SuggestIndexMap in Hthrow.
       destruct (collect_loops loops 0 ∅ ∅). rewrite Hst in Hthrow.
       injection Hthrow as <-. by eapply GetStrides_Throw. }
  destruct (f_flatten_index (length (shape buffer)) st indices) as [index|f'] eqn:Hidx.
  2: { left. unfold SuggestIndexMap in Hthrow.
       destruct (collect_loops loops 0 ∅ ∅). rewrite Hst in Hthrow. simpl in Hthrow.
       rewrite Hidx in Hthrow. injection Hthrow as <-.
       by eapply f_flatten_loop_Throw. }
  rewrite (SuggestIndexMap_steps _ _ _ _ _ _ _ Hst Hidx) in Hthrow.
  destruct (Collect index (collect_loops loops 0 ∅ ∅).1 pred false a)
    as [[split_exprs a']|f'] eqn:Hcollect; simpl in Hthrow.
  2: { left. injection Hthrow as <-. by eapply Collect_Throw. }
  case_bool_decide as Hne; [done|].
  destruct (std_sort _ (seq 0 (length split_exprs))) as [order|f'] eqn:Hsort;
    simpl in Hthrow.
  - apply std_sort_spec in Hsort as [Hperm _]. left.
    unfold FromFunc in Hthrow.
    destruct (f_alter_layout _ split_exprs order (shape buffer) a' _)
      as [out|f'] eqn:Hout; simpl in Hthrow; [done|].
    injection Hthrow as <-. by eapply f_alter_layout_Throw.
  - assert (f' = StdOutOfRange) as ->.
    { eapply std_sort_Throw; [|done]. apply Forall_forall. intros i Hi%elem_of_seq. lia. }
    injection Hthrow as <-. right. split; [done|].
    destruct (decide (Forall (λ e, is_Some (nesting_position loops (source e)))
                             split_exprs)) as [Hall|Hnot].
    { destruct (canonical_order_exists loops split_exprs Hall) as [order Horder].
      congruence. }
    apply not_Forall_Exists in Hnot; [|apply _].
    apply Exists_exists in Hnot as (e & He & Hpos).
    exists st, index, split_exprs, a', e. do 3 (split; [done|]).
    split; [|split; [done|]].
    + destruct split_exprs as [|e1 [|e2 rest]]; [done| |simpl; lia].
      simpl in Hsort. done.
    + by rewrite <- nesting_position_is_Some.
Qed.

Lemma SuggestIndexMap_failures_witness :
  let host :=
    scripted_host [IterSum [var_split "i" 1 4 8; var_split "z" 1 8 1] (IntImm 0)] in
  StdOutOfRange = ICheckFailed ∨
  (StdOutOfRange = StdOutOfRange ∧
   ∃ st index split_exprs a' e,
     GetStrides (MkBuffer [IntImm 32] []) = Ok st ∧
     f_flatten_index 1 st [VarRef (Named "i")] = Ok index ∧
     @Collect host index (collect_loops [loop_over "i" 4] 0 ∅ ∅).1
        const_true false [] = Ok (split_exprs, a') ∧
     2 ≤ length split_exprs ∧ e ∈ split_exprs ∧
     source e ∉ loop_var <$> [loop_over "i" 4]).
Proof.
  intros host.
  apply (@SuggestIndexMap_failures host (MkBuffer [IntImm 32] []) [VarRef (Named "i")]
           [loop_over "i" 4] const_true [] StdOutOfRange eq_refl).
Defined.

Lemma StronglySorted_seq (R : relation nat) :
  ∀ n i, (∀ a b, i ≤ a → a < b → b < i + n → R a b) → StronglySorted R (seq i n).
Proof.
  induction n as [|n IH]; intros i HR; simpl; constructor.
  - apply IH. intros a b Ha Hab Hb. apply HR; lia.
  - apply Forall_forall. intros b Hb%elem_of_seq. apply HR; lia.
Qed.

Lemma std_sort_sorted_id split_exprs var2id l :
  StronglySorted (λ a b, ∃ ka kb, sort_key split_exprs var2id a = Some ka ∧
                                  sort_key split_exprs var2id b = Some kb ∧
                                  key_less ka kb = true) l →
  std_sort (split_less split_exprs var2id) l = Ok l.
Proof.
  induction 1 as [|x rest _ IH Hx]; simpl; [done|].
  rewrite IH. simpl. destruct rest as [|y rest']; [done|].
  apply Forall_cons in Hx as [(kx & ky & Hkx & Hky & Hlt) _]. simpl.
  rewrite (split_less_keyed _ _ _ _ _ _ Hky Hkx). simpl.
  by rewrite (key_less_asym _ _ Hlt).
Qed.

(** X14: when the extracted components already stand in canonical order
    (nesting position ascending, lower factor descending within a variable,
    no two alike), the sort leaves the order as it is. *)
Theorem canonical_components_keep_order (loops : list For) (split_exprs : list SplitExpr)
    (Hcanonical : ∀ i j ei ej, i < j →
       split_exprs !! i = Some ei → split_exprs !! j = Some ej →
       ∃ pi pj, nesting_position loops (source ei) = Some pi ∧
                nesting_position loops (source ej) = Some pj ∧
                (pi < pj ∨ (pi = pj ∧ (lower_factor ej < lower_factor ei)%Z))) :
  std_sort (split_less split_exprs (collect_loops loops 0 ∅ ∅).2)
           (seq 0 (length split_exprs)) = Ok (seq 0 (length split_exprs)).
Proof.
  apply std_sort_sorted_id, StronglySorted_seq. intros i j _ Hij Hj.
  destruct (lookup_lt_is_Some_2 split_exprs i) as [ei Hei]; [lia|].
  destruct (lookup_lt_is_Some_2 split_exprs j) as [ej Hej]; [lia|].
  destruct (Hcanonical i j ei ej Hij Hei Hej) as (pi & pj & Hpi & Hpj & Hlt).
  exists (pi, lower_factor ei), (pj, lower_factor ej).
  split; [apply sort_key_Some; by exists ei, pi|].
  split; [apply sort_key_Some; by exists ej, pj|].
  unfold key_less. simpl. repeat case_bool_decide; simpl; try done; lia.
Qed.

Lemma canonical_components_keep_order_witness :
  let loops := [loop_over "i" 4; loop_over "j" 16] in
  let split_exprs := [MkSplitExpr (Named "i") 1 4; MkSplitExpr (Named "j") 4 4;
                      MkSplitExpr (Named "j") 1 4] in
  std_sort (split_less split_exprs (collect_loops loops 0 ∅ ∅).2) (seq 0 3)
    = Ok [0; 1; 2].
Proof.
  intros loops split_exprs.
  apply (canonical_components_keep_order loops split_exprs).
  intros i j ei ej Hij Hi Hj.
  destruct i as [|[|[|i]]]; destruct j as [|[|[|j]]];
    try (exfalso; lia); try discriminate Hi; try discriminate Hj;
    injection Hi as <-; injection Hj as <-; simpl.
  - exists 0, 1. repeat split; lia.
  - exists 0, 1. repeat split; lia.
  - exists 1, 1. split; [reflexivity|]. split; [reflexivity|]. right. lia.
Defined.

(** ** Mixed-radix arithmetic of the remapping *)

Lemma product_snoc (l : list Z) e : foldr Z.mul 1%Z (l ++ [e]) = (foldr Z.mul 1 l * e)%Z.
Proof. induction l as [|x l IH]; simpl; [lia|]. rewrite IH. lia. Qed.

Lemma product_pos (l : list Z) : Forall (λ e, 0 < e)%Z l → (0 < foldr Z.mul 1 l)%Z.
Proof. induction 1; simpl; lia. Qed.

Lemma positional_snoc exts : ∀ ds e d,
  length exts = length ds →
  positional (exts ++ [e]) (ds ++ [d]) = (positional exts ds * e + d)%Z.
Proof.
  induction exts as [|x exts IH]; intros [|d0 ds] e d Hlen; simpl in *; try lia.
  rewrite IH by lia. rewrite product_snoc. lia.
Qed.

Lemma digits_reversed_positional exts : ∀ ds,
  Forall2 (λ e d, 0 ≤ d < e)%Z exts ds →
  digits_reversed exts (positional exts ds) = ds.
Proof.
  induction exts as [|e exts IH] using rev_ind; intros ds Hrange.
  - by apply Forall2_nil_inv_l in Hrange as ->.
  - apply Forall2_app_inv_l in Hrange as (ds' & tail & Hds' & Htail & ->).
    apply Forall2_cons_inv_l in Htail as (d & nil & Hd & Hnil & ->).
    apply Forall2_nil_inv_l in Hnil as ->.
    rewrite digits_reversed_snoc, positional_snoc by by eapply Forall2_length.
    rewrite Z.div_add_l, Z.div_small, Z.add_0_r by lia.
    rewrite Z.add_comm, Z.mod_add, Z.mod_small by lia.
    by rewrite IH.
Qed.

Lemma positional_digits_reversed exts :
  Forall (λ e, 0 < e)%Z exts →
  ∀ flat, positional exts (digits_reversed exts flat) = (flat `mod` foldr Z.mul 1 exts)%Z.
Proof.
  induction exts as [|e exts IH] using rev_ind; intros Hpos flat.
  - simpl. by rewrite Z.mod_1_r.
  - apply Forall_app in Hpos as [Hexts [He _]%Forall_cons].
    rewrite digits_reversed_snoc, positional_snoc by by rewrite digits_reversed_length.
    rewrite IH, product_snoc by done.
    pose proof (product_pos _ Hexts) as Hprod.
    rewrite (Z.mul_comm (foldr Z.mul 1%Z exts) e).
    rewrite (Z.rem_mul_r flat e (foldr Z.mul 1%Z exts)) by lia.
    lia.
Qed.

Lemma weight_cons e vals i : weight (e :: vals) (S i) = weight vals i.
Proof. done. Qed.

Lemma dot_product_weights vals : ∀ cs,
  dot_product (weight vals <$> seq 0 (length vals)) cs = positional vals cs.
Proof.
  induction vals as [|e vals IH]; intros [|c cs]; simpl; try done.
  assert (Hshift : weight (e :: vals) <$> seq 1 (length vals) =
                   weight vals <$> seq 0 (length vals)).
  { rewrite <- fmap_S_seq, <- list_fmap_compose. apply list_fmap_ext.
    intros; apply weight_cons. }
  change (list_fmap nat Z (weight (e :: vals)) (seq 1 (length vals)))
    with (weight (e :: vals) <$> seq 1 (length vals)).
  rewrite Hshift, IH. unfold weight. simpl. rewrite drop_0. lia.
Qed.

Lemma positive_int_extents split_exprs :
  Forall (λ e, 0 < extent e < 2 ^ 31)%Z split_exprs →
  Forall (λ e, fits_int (extent e) ∧ extent e ≠ 0%Z) split_exprs.
Proof.
  intros Hpos. eapply Forall_impl; [exact Hpos|]. unfold fits_int. intros e He. lia.
Qed.

(** X15: for components whose extents are positive and fit in an [int],
    the value of every new coordinate lies within the extent of the
    component it stands for: at every valuation of the placeholders within
    the shape, for a simplifier that preserves values in the analyzer states
    that admit the valuation, and for every order the sort returns. *)
Theorem new_coordinates_in_range `{Host : ArithHost} (admits : Analyzer → Prop)
    buffer st split_exprs order a coords env
    (Hst : GetStrides buffer = Ok st)
    (Horder : order ≡ₚ seq 0 (length split_exprs))
    (Hlen : length coords = length (shape buffer))
    (Hpos : Forall (λ e, 0 < extent e < 2 ^ 31)%Z split_exprs)
    (Hadmits : admits a)
    (Hbind : ∀ a v d, admits a → (0 ≤ env v < eval env d)%Z →
             admits (Bind a v (FromMinExtent (make_const 0) d)))
    (Hsound : ∀ a e, admits a → eval env (Simplify a e) = eval env e)
    (Hrange : ∀ i v d, coords !! i = Some v → shape buffer !! i = Some d →
              (0 ≤ env v < eval env d)%Z) :
  ∃ out,
    f_alter_layout (f_flatten_index (length (shape buffer)) st) split_exprs order
      (shape buffer) a coords = Ok out ∧
    ∀ k j e, order !! k = Some j → split_exprs !! j = Some e →
      ∃ x, (eval env <$> out) !! k = Some x ∧ (0 ≤ x < extent e)%Z.
Proof.
  destruct (f_alter_layout_digits admits buffer st split_exprs order a coords env
              Hst Horder Hlen (positive_int_extents _ Hpos) Hadmits Hbind Hsound Hrange)
    as (flat & out & Hflat & Hout & Houtlen & Hdigits).
  exists out. split; [done|].
  intros k j e Hk Hj. rewrite (Hdigits k j Hk).
  assert (Hnonneg : Forall (λ e, 0 ≤ e)%Z (extent <$> split_exprs)).
  { apply Forall_fmap. eapply Forall_impl; [exact Hpos|]. simpl. lia. }
  assert (Hext : (extent <$> split_exprs) !! j = Some (extent e))
    by by rewrite list_lookup_fmap, Hj.
  rewrite (digits_reversed_lookup _ Hnonneg _ _ _ Hext).
  eexists. split; [done|]. apply Z.mod_pos_bound.
  eapply Forall_forall in Hpos; [|by eapply list_elem_of_lookup_2]. lia.
Qed.

Lemma new_coordinates_in_range_witness :
  let env := λ v : Var, if decide (v = Fresh 0) then 29%Z else 0%Z in
  let split_exprs := [MkSplitExpr (Named "k_o") 1 4; MkSplitExpr (Named "k_i") 1 8] in
  ∃ out,
    @f_alter_layout (range_host []) (f_flatten_index 1 [IntImm 1]) split_exprs [0; 1]
      [IntImm 32] [] [Fresh 0] = Ok out ∧
    ∀ k j e, [0; 1] !! k = Some j → split_exprs !! j = Some e →
      ∃ x, (eval env <$> out) !! k = Some x ∧ (0 ≤ x < extent e)%Z.
Proof.
  intros env split_exprs.
  apply (@new_coordinates_in_range (range_host []) (respects env)
           (MkBuffer [IntImm 32] []) [IntImm 1] split_exprs [0; 1] [] [Fresh 0] env
           eq_refl).
  - reflexivity.
  - reflexivity.
  - repeat constructor; (cbv; congruence).
  - constructor.
  - intros a v d. apply respects_bind.
  - intros a e. apply range_simplify_sound.
  - intros i v d Hv Hd.
    destruct i as [|i]; [|discriminate Hv];
      injection Hv as <-; injection Hd as <-; cbv; split; congruence.
Defined.

(** X16: for components whose extents are positive and fit in an [int],
    the values of the new coordinates, put back into extraction order and
    read as digits in the mixed radix of the component extents, give the
    flattened position modulo the product of the extents, so distinct
    positions below that product get distinct new coordinates: at every
    valuation of the placeholders within the shape, for a simplifier that
    preserves values in the analyzer states that admit the valuation, and
    for every order the sort returns. *)
Theorem new_coordinates_recompose `{Host : ArithHost} (admits : Analyzer → Prop)
    buffer st split_exprs order a coords env
    (Hst : GetStrides buffer = Ok st)
    (Horder : order ≡ₚ seq 0 (length split_exprs))
    (Hlen : length coords = length (shape buffer))
    (Hpos : Forall (λ e, 0 < extent e < 2 ^ 31)%Z split_exprs)
    (Hadmits : admits a)
    (Hbind : ∀ a v d, admits a → (0 ≤ env v < eval env d)%Z →
             admits (Bind a v (FromMinExtent (make_const 0) d)))
    (Hsound : ∀ a e, admits a → eval env (Simplify a e) = eval env e)
    (Hrange : ∀ i v d, coords !! i = Some v → shape buffer !! i = Some d →
              (0 ≤ env v < eval env d)%Z) :
  ∃ flat out ds,
    f_flatten_index (length (shape buffer)) st (VarRef <$> coords) = Ok flat ∧
    f_alter_layout (f_flatten_index (length (shape buffer)) st) split_exprs order
      (shape buffer) a coords = Ok out ∧
    length ds = length split_exprs ∧
    (∀ k j, order !! k = Some j → (eval env <$> out) !! k = ds !! j) ∧
    positional (extent <$> split_exprs) ds =
    (eval env flat `mod` foldr Z.mul 1 (extent <$> split_exprs))%Z.
Proof.
  destruct (f_alter_layout_digits admits buffer st split_exprs order a coords env
              Hst Horder Hlen (positive_int_extents _ Hpos) Hadmits Hbind Hsound Hrange)
    as (flat & out & Hflat & Hout & Houtlen & Hdigits).
  exists flat, out, (digits_reversed (extent <$> split_exprs) (eval env flat)).
  do 2 (split; [done|]).
  split; [by rewrite digits_reversed_length, length_fmap|]. split; [done|].
  apply positional_digits_reversed. apply Forall_fmap.
  eapply Forall_impl; [exact Hpos|]. simpl. lia.
Qed.

Lemma new_coordinates_recompose_witness :
  let env := λ v : Var, if decide (v = Fresh 0) then 29%Z else 0%Z in
  let split_exprs := [MkSplitExpr (Named "k_o") 1 4; MkSplitExpr (Named "k_i") 1 8] in
  ∃ flat out ds,
    f_flatten_index 1 [IntImm 1] (VarRef <$> [Fresh 0]) = Ok flat ∧
    @f_alter_layout (range_host []) (f_flatten_index 1 [IntImm 1]) split_exprs [0; 1]
      [IntImm 32] [] [Fresh 0] = Ok out ∧
    length ds = 2 ∧
    (∀ k j, [0; 1] !! k = Some j → (eval env <$> out) !! k = ds !! j) ∧
    positional (extent <$> split_exprs) ds = (eval env flat `mod` 32)%Z.
Proof.
  intros env split_exprs.
  apply (@new_coordinates_recompose (range_host []) (respects env)
           (MkBuffer [IntImm 32] []) [IntImm 1] split_exprs [0; 1] [] [Fresh 0] env
           eq_refl).
  - reflexivity.
  - reflexivity.
  - repeat constructor; (cbv; congruence).
  - constructor.
  - intros a v d. apply respects_bind.
  - intros a e. apply range_simplify_sound.
  - intros i v d Hv Hd.
    destruct i as [|i]; [|discriminate Hv];
      injection Hv as <-; injection Hd as <-; cbv; split; congruence.
Defined.

(** X17: for a buffer without explicit strides whose components mirror its
    dimensions (the extents of the components, in extraction order, are the
    values of the shape, and fit in an [int]), the remapping function
    rearranges the original coordinates: at every valuation of the
    placeholders within the shape, for a simplifier that preserves values
    in the analyzer states that admit the valuation, and for every order the
    sort returns, new coordinate k has the value of the original coordinate
    whose index the order has at position k. *)
Theorem mirrored_components_permute_coordinates `{Host : ArithHost}
    (admits : Analyzer → Prop) buffer st split_exprs order a coords env
    (Hst : GetStrides buffer = Ok st)
    (Hderive : strides buffer = [])
    (Horder : order ≡ₚ seq 0 (length split_exprs))
    (Hlen : length coords = length (shape buffer))
    (Hmirror : extent <$> split_exprs = eval env <$> shape buffer)
    (Hint : Forall (λ e, extent e < 2 ^ 31)%Z split_exprs)
    (Hadmits : admits a)
    (Hbind : ∀ a v d, admits a → (0 ≤ env v < eval env d)%Z →
             admits (Bind a v (FromMinExtent (make_const 0) d)))
    (Hsound : ∀ a e, admits a → eval env (Simplify a e) = eval env e)
    (Hrange : ∀ i v d, coords !! i = Some v → shape buffer !! i = Some d →
              (0 ≤ env v < eval env d)%Z) :
  ∃ out,
    f_alter_layout (f_flatten_index (length (shape buffer)) st) split_exprs order
      (shape buffer) a coords = Ok out ∧
    ∀ k j, order !! k = Some j → (eval env <$> out) !! k = env <$> coords !! j.
Proof.
  set (n := length (shape buffer)).
  set (vals := eval env <$> shape buffer).
  set (cs := env <$> coords).
  assert (Hn : length split_exprs = n).
  { by rewrite <- (length_fmap extent), Hmirror, length_fmap. }
  assert (Hdims : Forall2 (λ e c, 0 ≤ c < e)%Z vals cs).
  { apply Forall2_same_length_lookup_2.
    - unfold vals, cs. rewrite !length_fmap. by rewrite Hlen.
    - intros i e c He Hc. unfold vals in He. unfold cs in Hc.
      rewrite list_lookup_fmap in He. rewrite list_lookup_fmap in Hc.
      destruct (shape buffer !! i) as [d|] eqn:Hd; [|done].
      destruct (coords !! i) as [v|] eqn:Hv; [|done].
      simpl in *. simplify_eq. by eapply Hrange. }
  assert (Hpos : Forall (λ e, 0 < extent e < 2 ^ 31)%Z split_exprs).
  { apply Forall_forall. intros e He.
    eapply Forall_forall in Hint as Hlt; [|done]. split; [|done].
    apply list_elem_of_lookup in He as [i Hi].
    assert (Hv : vals !! i = Some (extent e)).
    { unfold vals. by rewrite <- Hmirror, list_lookup_fmap, Hi. }
    destruct (Forall2_lookup_l _ _ _ _ _ Hdims Hv) as (c & _ & Hc). lia. }
  destruct (f_alter_layout_digits admits buffer st split_exprs order a coords env
              Hst Horder Hlen (positive_int_extents _ Hpos) Hadmits Hbind Hsound Hrange)
    as (flat & out & Hflat & Hout & Houtlen & Hdigits).
  exists out. split; [done|]. intros k j Hk.
  assert (Hvalue : eval env flat = positional vals cs).
  { unfold f_flatten_index in Hflat.
    rewrite (f_flatten_loop_value env _ _ _ _ _ _ Hflat). simpl. rewrite !drop_0.
    destruct (derived_stride_values buffer env Hderive) as (st0 & Hst0 & Hvals).
    assert (st0 = st) as -> by congruence.
    rewrite Hvals, <- !list_fmap_compose. fold n vals.
    rewrite !take_ge by (rewrite length_fmap, ?length_seq; lia).
    change (eval env ∘ VarRef <$> coords) with cs.
    rewrite <- (dot_product_weights vals cs).
    assert (length vals = n) as -> by (unfold vals; by rewrite length_fmap).
    by rewrite Z.add_0_l. }
  rewrite (Hdigits k j Hk), Hmirror, Hvalue. fold vals.
  rewrite digits_reversed_positional by done.
  unfold cs. by rewrite list_lookup_fmap.
Qed.

Lemma mirrored_components_permute_coordinates_witness :
  let env := λ v : Var,
    if decide (v = Fresh 0) then 5%Z else if decide (v = Fresh 1) then 3%Z else 0%Z in
  let split_exprs := [MkSplitExpr (Named "j") 1 8; MkSplitExpr (Named "i") 1 4] in
  ∃ out,
    @f_alter_layout (range_host [])
      (f_flatten_index 2 [Mul (IntImm 1) (IntImm 4); IntImm 1]) split_exprs [1; 0]
      [IntImm 8; IntImm 4] [] [Fresh 0; Fresh 1] = Ok out ∧
    ∀ k j, [1; 0] !! k = Some j →
      (eval env <$> out) !! k = env <$> [Fresh 0; Fresh 1] !! j.
Proof.
  intros env split_exprs.
  apply (@mirrored_components_permute_coordinates (range_host []) (respects env)
           (MkBuffer [IntImm 8; IntImm 4] []) [Mul (IntImm 1) (IntImm 4); IntImm 1]
           split_exprs [1; 0] [] [Fresh 0; Fresh 1] env eq_refl eq_refl).
  - apply Permutation_swap.
  - reflexivity.
  - reflexivity.
  - repeat constructor; (cbv; congruence).
  - constructor.
  - intros a v d. apply respects_bind.
  - intros a e. apply range_simplify_sound.
  - intros i v d Hv Hd.
    destruct i as [|[|i]]; [| |discriminate Hv];
      injection Hv as <-; injection Hd as <-; cbv; split; congruence.
Defined.

(** ** The outcome of the analysis *)

(** X18: SuggestIndexMap declines exactly when strides and flattened index
    are built and the extractor returns the empty list; once the extractor
    returns a component the call ends in a suggestion or in an exception,
    never in a decline. *)
Theorem SuggestIndexMap_declines_iff `{Host : ArithHost} buffer indices loops pred a :
  SuggestIndexMap buffer indices loops pred a = Ok None ↔
  ∃ st index a',
    GetStrides buffer = Ok st ∧
    f_flatten_index (length (shape buffer)) st indices = Ok index ∧
    Collect index (collect_loops loops 0 ∅ ∅).1 pred false a = Ok ([], a').
Proof.
  split.
  - intros Hnone.
    destruct (GetStrides buffer) as [st|f] eqn:Hst.
    2: { unfold SuggestIndexMap in Hnone.
         destruct (collect_loops loops 0 ∅ ∅). by rewrite Hst in Hnone. }
    destruct (f_flatten_index (length (shape buffer)) st indices) as [index|f] eqn:Hidx.
    2: { unfold SuggestIndexMap in Hnone.
         destruct (collect_loops loops 0 ∅ ∅). rewrite Hst in Hnone. simpl in Hnone.
         by rewrite Hidx in Hnone. }
    rewrite (SuggestIndexMap_steps _ _ _ _ _ _ _ Hst Hidx) in Hnone.
    apply bind_Ok in Hnone as ([split_exprs a'] & Hcollect & Hnone).
    case_bool_decide as Hnil.
    + subst. by exists st, index, a'.
    + apply bind_Ok in Hnone as (order & _ & Hnone).
      by apply bind_Ok in Hnone as (m & _ & [=]).
  - intros (st & index & a' & Hst & Hidx & Hcollect).
    by eapply SuggestIndexMap_Collect_nil.
Qed.

Lemma SuggestIndexMap_declines_iff_witness :
  ∃ st index a',
    GetStrides (MkBuffer [IntImm 64] []) = Ok st ∧
    f_flatten_index 1 st [VarRef (Named "i")] = Ok index ∧
    @Collect (scripted_host []) index (collect_loops [loop_over "i" 4] 0 ∅ ∅).1
      const_true false [] = Ok ([], a').
Proof.
  apply (@SuggestIndexMap_declines_iff (scripted_host []) (MkBuffer [IntImm 64] [])
           [VarRef (Named "i")] [loop_over "i" 4] const_true []).
  reflexivity.
Defined.
